(** * Path selection in pkg/pan: selectors, probing loop, reply cache

    A shallow embedding of [pkg/pan/selector.go], [pkg/pan/udp_dial.go] and
    [pkg/pan/udp_listen.go].  Go panics (index out of range, nil dereference,
    the explicit [panic(err)] of [sendPings]) are results of type [Result];
    the process-wide [stats] registry, the pinger, the raw connection and the
    daemon are external collaborators: their state is threaded explicitly and
    their answers are members of type classes. *)

From stdpp Require Import gmap strings list fin_maps.
From Stdlib Require Import ZArith Lia.

Local Open Scope Z_scope.

(** ** Go runtime faults *)

Inductive Fault :=
| IndexOutOfRange
| NilDereference
| SendFailed.

Inductive Result (A : Type) :=
| Ok (a : A)
| Panic (f : Fault).
Arguments Ok {A} a.
Arguments Panic {A} f.

#[global] Instance Result_ret : MRet Result := @Ok.
#[global] Instance Result_bind : MBind Result :=
  λ A B f m, match m with Ok a => f a | Panic e => Panic e end.

(** [l[i]] for a Go slice and an [int] index. *)
Definition index {A} (l : list A) (i : Z) : Result A :=
  if decide (0 ≤ i) then
    match l !! Z.to_nat i with
    | Some x => Ok x
    | None => Panic IndexOutOfRange
    end
  else Panic IndexOutOfRange.

(** [len(l)] as a Go [int]. *)
Definition len {A} (l : list A) : Z := Z.of_nat (length l).

(** [uint16(x)] for an unsigned 64-bit [x]. *)
Definition uint16 (x : Z) : Z := x mod 65536.

(** ** Data model *)

Abbreviation IA := Z (only parsing).
Abbreviation IfID := Z (only parsing).
Abbreviation IP := Z (only parsing).
Abbreviation Duration := Z (only parsing).
Abbreviation PathFingerprint := string (only parsing).

Record PathInterface := { pi_IA : IA; pi_IfID : IfID }.

#[global] Instance PathInterface_eq_dec : EqDecision PathInterface.
Proof. solve_decision. Defined.

Record UDPAddr := { ua_IA : IA; ua_IP : IP; ua_Port : Z }.

#[global] Instance UDPAddr_eq_dec : EqDecision UDPAddr.
Proof. solve_decision. Defined.

#[global] Instance UDPAddr_countable : Countable UDPAddr.
Proof.
  refine (inj_countable' (λ a, (ua_IA a, ua_IP a, ua_Port a))
            (λ t, {| ua_IA := t.1.1; ua_IP := t.1.2; ua_Port := t.2 |}) _).
  by intros [].
Defined.

Record scionAddr := { sa_IA : IA; sa_IP : IP }.

#[global] Instance scionAddr_eq_dec : EqDecision scionAddr.
Proof. solve_decision. Defined.

(** [UDPAddr.scionAddr()] *)
Definition UDPAddr_scionAddr (a : UDPAddr) : scionAddr :=
  {| sa_IA := ua_IA a; sa_IP := ua_IP a |}.

(** [snet.FabridPolicyPerHop]; an unset [Ingress]/[Egress] is Go's zero. *)
Record FabridPolicyPerHop :=
  { hop_Pol : Z; hop_IA : IA; hop_Ingress : Z; hop_Egress : Z }.

(** [snet.PathInterface] *)
Record snetPathInterface := { spi_ID : Z; spi_IA : IA }.

(** [snetpath.FabridConfig]; the addresses are kept as [IP] values, their
    [String()] rendering is not modelled. *)
Record FabridConfig :=
  { fc_LocalIA : IA; fc_LocalAddr : IP;
    fc_DestinationIA : IA; fc_DestinationAddr : IP }.

(** What [snetpath.NewFABRIDDataplanePath] is given, and whether the DRKey
    fetchers were registered on the result. *)
Record FabridPath :=
  { fp_base : Z;
    fp_interfaces : list snetPathInterface;
    fp_hops : list FabridPolicyPerHop;
    fp_config : FabridConfig;
    fp_state : PathFingerprint;
    fp_fetchers : bool }.

(** The dynamic type of [ForwardingPath.dataplanePath]. *)
Inductive DataplanePath :=
| DP_SCION (raw : Z)
| DP_FABRID (f : FabridPath)
| DP_other (tag : Z).

Record ForwardingPath := { dataplanePath : DataplanePath; underlay : Z }.

Record PathMetadata := { Interfaces : list PathInterface }.

Record Path :=
  { path_ForwardingPath : ForwardingPath;
    path_Metadata : PathMetadata;
    Fingerprint : PathFingerprint }.

(** Modelled from the spec: [isInterfaceOnPath] is not among the sources; "a
    Path is affected if any of its hops matches the reported interface". *)
Definition isInterfaceOnPath (p : Path) (pi : PathInterface) : bool :=
  bool_decide (pi ∈ Interfaces (path_Metadata p)).

(** ** The [stats] registry

    The registry is process-wide and lives outside these files.  Its state is
    the log of the write calls made to it, newest first; what its queries
    answer on a given log is left to the implementation. *)

Inductive StatsCall :=
| RecordLatencyCall (remote : scionAddr) (pf : PathFingerprint) (d : Duration)
| NotifyPathDownCall (pf : PathFingerprint) (pi : PathInterface).

Abbreviation Stats := (list StatsCall) (only parsing).

Definition RecordLatency (remote : scionAddr) (pf : PathFingerprint)
    (d : Duration) (st : list StatsCall) : list StatsCall :=
  RecordLatencyCall remote pf d :: st.

Definition NotifyPathDown (pf : PathFingerprint) (pi : PathInterface)
    (st : list StatsCall) : list StatsCall :=
  NotifyPathDownCall pf pi :: st.

Class StatsQueries := {
  LowestLatency : list StatsCall → scionAddr → list Path → Z;
  FirstMoreAlive : list StatsCall → Path → list Path → Z
}.

(** ** The Selector interface

    The methods of [Selector] but [Close]; each takes the registry as it is
    at the call. *)

Class Selector (S : Type) := {
  sel_Path : S → Result (option Path);
  sel_Initialize : list StatsCall → UDPAddr → UDPAddr → list Path → S → Result S;
  sel_Refresh : list StatsCall → list Path → S → Result S;
  sel_PathDown : list StatsCall → PathFingerprint → PathInterface → S → Result S
}.

(** A non-nil interface value: the dynamic type, its methods, its state. *)
Record SelectorObj := {
  sel_type : Type;
  sel_methods : Selector sel_type;
  sel_state : sel_type
}.

(** The loop of [Refresh]: [for i, p := range paths], entered with the
    running index [i] and the value [newcurrent] has before the loop. *)
Fixpoint Refresh_loop (currentFingerprint : PathFingerprint)
    (paths : list Path) (i newcurrent : Z) : Z :=
  match paths with
  | [] => newcurrent
  | p :: rest =>
      if decide (Fingerprint p = currentFingerprint) then i
      else Refresh_loop currentFingerprint rest (i + 1) newcurrent
  end.

(** ** DefaultSelector *)

Module DefaultSelector.

Record t := { paths : list Path; current : Z }.

Definition NewDefaultSelector : t := {| paths := []; current := 0 |}.

Definition Initialize (local remote : UDPAddr) (ps : list Path)
    (s : t) : t :=
  {| paths := ps; current := 0 |}.

Definition Refresh (ps : list Path) (s : t) : Result t :=
  newcurrent ←
    (if decide (len (paths s) > 0) then
       cur ← index (paths s) (current s);
       Ok (Refresh_loop (Fingerprint cur) ps 0 0)
     else Ok 0);
  Ok {| paths := ps; current := newcurrent |}.

Definition PathDown `{StatsQueries} (st : list StatsCall)
    (pf : PathFingerprint) (pi : PathInterface) (s : t) : Result t :=
  cur ← index (paths s) (current s);
  if isInterfaceOnPath cur pi || bool_decide (pf = Fingerprint cur) then
    let better := FirstMoreAlive st cur (paths s) in
    if decide (better >= 0) then
      Ok {| paths := paths s; current := better |}
    else Ok s
  else Ok s.

Definition Path (s : t) : Result (option Path) :=
  if decide (len (paths s) = 0) then Ok None
  else p ← index (paths s) (current s); Ok (Some p).

End DefaultSelector.

(** ** FabridSelector *)

(** The daemon, the FABRID path constructor and the gRPC dialer, as
    [FabridSelector.Initialize] consults them.  [SVCInfo] is
    [servicesInfo[addr.SvcCS]], [None] when the call returns an error. *)
Class ControlPlane := {
  NewFABRIDDataplanePath_ok :
    Z → list snetPathInterface → list FabridPolicyPerHop → FabridConfig →
    PathFingerprint → bool;
  SVCInfo : option (list string);
  ResolveTCPAddr : string → option Z;
  grpc_DialContext_ok : string → bool
}.

Definition convertInterfaces (interfaces : list PathInterface)
    : list snetPathInterface :=
  (λ pathInterface,
     {| spi_ID := pi_IfID pathInterface; spi_IA := pi_IA pathInterface |})
  <$> interfaces.

Module FabridSelector.

Record t := { paths : list Path; current : Z; policy : Z }.

Definition NewFabridSelector (client_policy : Z) : t :=
  {| paths := []; current := 0; policy := client_policy |}.

(** The loop [for i := 1; i < len(ifaces)-1; i += 2] of [Initialize],
    recursing on the slice [ifaces[i:]]: the guard [i < len(ifaces)-1]
    holds exactly when that slice has two entries or more, and these are
    [ifaces[i]] and [ifaces[i+1]]. *)
Fixpoint Initialize_loop (pol : Z) (ifaces_from_i : list PathInterface)
    (hops : list FabridPolicyPerHop) : list FabridPolicyPerHop :=
  match ifaces_from_i with
  | ifaces_i :: ifaces_i1 :: rest =>
      Initialize_loop pol rest
        (hops ++ [ {| hop_Pol := pol;
                      hop_IA := pi_IA ifaces_i;
                      hop_Ingress := uint16 (pi_IfID ifaces_i);
                      hop_Egress := uint16 (pi_IfID ifaces_i1) |} ])
  | _ => hops
  end.

(** Lines 380 to 401 of [Initialize]: the per-hop policy records. *)
Definition Initialize_hops (pol : Z) (ifaces : list PathInterface)
    : Result (list FabridPolicyPerHop) :=
  first ← index ifaces 0;
  let hops := [ {| hop_Pol := pol;
                   hop_IA := pi_IA first;
                   hop_Ingress := 0;
                   hop_Egress := uint16 (pi_IfID first) |} ] in
  let hops := Initialize_loop pol (drop 1 ifaces) hops in
  last ← index ifaces (len ifaces - 1);
  Ok (hops ++ [ {| hop_Pol := pol;
                   hop_IA := pi_IA last;
                   hop_Ingress := uint16 (pi_IfID last);
                   hop_Egress := 0 |} ]).

(** [Initialize].  Every logged error returns before [s.paths] is
    assigned.  The assignment to [path.ForwardingPath.dataplanePath] goes
    through the pointer [paths[0]]: the list handed in is the list stored,
    with its first entry updated; other holders of that pointer are not
    modelled. *)
Definition Initialize `{ControlPlane} (local remote : UDPAddr)
    (ps : list Path) (s : t) : Result t :=
  path ← index ps 0;
  let dataplanePath := dataplanePath (path_ForwardingPath path) in
  let ifaces := Interfaces (path_Metadata path) in
  hops ← Initialize_hops (policy s) ifaces;
  match dataplanePath with
  | DP_SCION previous_path =>
      let fabridConfig :=
        {| fc_LocalIA := ua_IA local; fc_LocalAddr := ua_IP local;
           fc_DestinationIA := ua_IA remote;
           fc_DestinationAddr := ua_IP remote |} in
      if NewFABRIDDataplanePath_ok previous_path (convertInterfaces ifaces)
           hops fabridConfig (Fingerprint path) then
        match SVCInfo with
        | None => Ok s
        | Some services =>
            controlServiceInfo ← index services 0;
            match ResolveTCPAddr controlServiceInfo with
            | None => Ok s
            | Some controlAddr =>
                if grpc_DialContext_ok controlServiceInfo then
                  let fabridPath :=
                    {| fp_base := previous_path;
                       fp_interfaces := convertInterfaces ifaces;
                       fp_hops := hops;
                       fp_config := fabridConfig;
                       fp_state := Fingerprint path;
                       fp_fetchers := true |} in
                  let path' :=
                    {| path_ForwardingPath :=
                         {| dataplanePath := DP_FABRID fabridPath;
                            underlay := underlay (path_ForwardingPath path) |};
                       path_Metadata := path_Metadata path;
                       Fingerprint := Fingerprint path |} in
                  Ok {| paths := <[0%nat := path']> ps; current := 0;
                        policy := policy s |}
                else Ok s
            end
        end
      else Ok s
  | _ => Ok {| paths := ps; current := 0; policy := policy s |}
  end.

Definition Refresh (ps : list Path) (s : t) : Result t :=
  newcurrent ←
    (if decide (len (paths s) > 0) then
       cur ← index (paths s) (current s);
       Ok (Refresh_loop (Fingerprint cur) ps 0 0)
     else Ok 0);
  Ok {| paths := ps; current := newcurrent; policy := policy s |}.

Definition PathDown `{StatsQueries} (st : list StatsCall)
    (pf : PathFingerprint) (pi : PathInterface) (s : t) : Result t :=
  cur ← index (paths s) (current s);
  if isInterfaceOnPath cur pi || bool_decide (pf = Fingerprint cur) then
    let better := FirstMoreAlive st cur (paths s) in
    if decide (better >= 0) then
      Ok {| paths := paths s; current := better; policy := policy s |}
    else Ok s
  else Ok s.

Definition Path (s : t) : Result (option Path) :=
  if decide (len (paths s) = 0) then Ok None
  else p ← index (paths s) (current s); Ok (Some p).

End FabridSelector.

(** ** PingingSelector and its probing loop *)

(** [reply.Error], by its dynamic type. *)
Inductive PingError :=
| InternalConnectivityDownError (ia : IA) (ingress egress : Z)
| ExternalInterfaceDownError (ia : IA) (interface : Z)
| OtherPingError.

(** [reply.Source.Host], by [Type()]. *)
Inductive Host :=
| HostIP (ip : IP)
| HostSVC (svc : Z)
| HostNone.

(** [ping.Reply]; [RTT] stands for the method [RTT()]. *)
Record Reply :=
  { Error : option PingError;
    Source_IA : IA;
    Source_Host : Host;
    reply_Path : Z;
    SeqNumber : Z;
    RTT : Duration }.

(** One successful [pinger.Send]. *)
Record Probe :=
  { probe_remote : scionAddr;
    probe_Path : DataplanePath;
    probe_NextHop : Z;
    probe_seq : Z }.

(** The pinger and the path library: [reversePathFingerprint] answers [None]
    for an error, [pinger_Send_ok] is [err == nil] of [pinger.Send]. *)
Class Pinger := {
  reversePathFingerprint : Z → option PathFingerprint;
  pinger_Send_ok : scionAddr → Path → Z → bool
}.

(** [s[:n]] for a Go slice whose capacity is its length. *)
Definition slice_to {A} (l : list A) (n : Z) : Result (list A) :=
  if decide (0 ≤ n ≤ len l) then Ok (take (Z.to_nat n) l)
  else Panic IndexOutOfRange.

Module PingingSelector.

Record t :=
  { Interval : Duration;
    Timeout : Duration;
    paths : list Path;
    current : Z;
    local : scionAddr;
    remote : scionAddr;
    numActive : Z }.

Section Methods.
Context `{StatsQueries} `{Pinger}.

Definition Initialize (st : list StatsCall) (local_ remote_ : UDPAddr)
    (ps : list Path) (s : t) : t :=
  let remote' := UDPAddr_scionAddr remote_ in
  {| Interval := Interval s; Timeout := Timeout s;
     paths := ps;
     current := LowestLatency st remote' ps;
     local := UDPAddr_scionAddr local_;
     remote := remote';
     numActive := numActive s |}.

Definition Refresh (st : list StatsCall) (ps : list Path) (s : t) : t :=
  {| Interval := Interval s; Timeout := Timeout s;
     paths := ps;
     current := LowestLatency st (remote s) ps;
     local := local s; remote := remote s;
     numActive := numActive s |}.

Definition reselectPath (st : list StatsCall) (s : t) : t :=
  {| Interval := Interval s; Timeout := Timeout s;
     paths := paths s;
     current := LowestLatency st (remote s) (paths s);
     local := local s; remote := remote s;
     numActive := numActive s |}.

Definition PathDown (st : list StatsCall) (pf : PathFingerprint)
    (pi : PathInterface) (s : t) : t :=
  reselectPath st s.

(** [atomic.SwapInt64(&s.numActive, int64(numActive))]; starting the
    pinger and the loop ([ensureRunning]) is outside this model. *)
Definition SetActive (n : Z) (s : t) : t :=
  {| Interval := Interval s; Timeout := Timeout s;
     paths := paths s; current := current s;
     local := local s; remote := remote s;
     numActive := n |}.

(** [sendPings]; [probes] is the log of probes sent, newest first. *)
Fixpoint sendPings (s : t) (ps : list Path) (sequenceNo : Z)
    (probes : list Probe) : Result (list Probe) :=
  match ps with
  | [] => Ok probes
  | p :: rest =>
      if pinger_Send_ok (remote s) p sequenceNo then
        sendPings s rest sequenceNo
          ({| probe_remote := remote s;
              probe_Path := dataplanePath (path_ForwardingPath p);
              probe_NextHop := underlay (path_ForwardingPath p);
              probe_seq := sequenceNo |} :: probes)
      else Panic SendFailed
  end.

(** [handlePingReply]: the registry and the map [expectedReplies] after
    the call.  The call-backs the registry itself makes on
    [NotifyPathDown] are not modelled. *)
Definition handlePingReply (s : t) (reply : Reply)
    (expectedReplies : gset string) (expectedSequenceNo : Z)
    (st : list StatsCall) : list StatsCall * gset string :=
  match Error reply with
  | Some e =>
      match reversePathFingerprint (reply_Path reply) with
      | None => (st, expectedReplies)
      | Some pf =>
          match e with
          | InternalConnectivityDownError ia _ egress =>
              (NotifyPathDown pf {| pi_IA := ia; pi_IfID := egress |} st,
               expectedReplies)
          | ExternalInterfaceDownError ia interface =>
              (NotifyPathDown pf {| pi_IA := ia; pi_IfID := interface |} st,
               expectedReplies)
          | OtherPingError => (st, expectedReplies)
          end
      end
  | None =>
      match Source_Host reply with
      | HostIP ip =>
          let src := {| sa_IA := Source_IA reply; sa_IP := ip |} in
          if decide (src ≠ remote s ∨ SeqNumber reply ≠ expectedSequenceNo)
          then (st, expectedReplies)
          else
            match reversePathFingerprint (reply_Path reply) with
            | None => (st, expectedReplies)
            | Some pf =>
                if decide (pf ∈ expectedReplies) then
                  (RecordLatency (remote s) pf (RTT reply) st,
                   expectedReplies ∖ {[ pf ]})
                else (st, expectedReplies)
            end
      | _ => (st, expectedReplies)
      end
  end.

(** The selector, the locals of [run], the registry, and two logs kept
    for the statements: the probes sent and the number of calls of
    [reselectPath] made by the loop. *)
Record Loop :=
  { sel : t;
    sequenceNo : Z;
    replyPending : gset string;
    timeoutArmed : bool;
    stats : list StatsCall;
    probes : list Probe;
    reselections : nat }.

Inductive Event :=
| Done
| Tick
| ReplyEv (r : Reply)
| TimeoutEv.

(** [case <-pingTicker.C] *)
Definition on_tick (w : Loop) : Result Loop :=
  let s := sel w in
  let numActive := numActive s in
  let numActive :=
    if decide (numActive > len (paths s)) then len (paths s)
    else numActive in
  if decide (numActive = 0) then Ok w
  else
    activePaths ← slice_to (paths s) numActive;
    let replyPending :=
      foldl (λ pending p, {[ Fingerprint p ]} ∪ pending)
            (replyPending w) activePaths in
    let sequenceNo := uint16 (sequenceNo w + 1) in
    probes ← sendPings s activePaths sequenceNo (probes w);
    Ok {| sel := s; sequenceNo := sequenceNo;
          replyPending := replyPending; timeoutArmed := true;
          stats := stats w; probes := probes;
          reselections := reselections w |}.

(** [case r := <-s.pinger.Replies] *)
Definition on_reply (r : Reply) (w : Loop) : Loop :=
  let '(st, pending) :=
    handlePingReply (sel w) r (replyPending w) (sequenceNo w) (stats w) in
  if decide (size pending = 0%nat) then
    {| sel := reselectPath st (sel w); sequenceNo := sequenceNo w;
       replyPending := pending; timeoutArmed := false;
       stats := st; probes := probes w;
       reselections := S (reselections w) |}
  else
    {| sel := sel w; sequenceNo := sequenceNo w;
       replyPending := pending; timeoutArmed := timeoutArmed w;
       stats := st; probes := probes w;
       reselections := reselections w |}.

(** The body of [for pf := range replyPending]; Go visits the keys in
    an unspecified order, the model in the order of [elements]. *)
Definition expire (s : t) (acc : list StatsCall * gset string)
    (pf : string) : list StatsCall * gset string :=
  (RecordLatency (remote s) pf (Timeout s) acc.1, acc.2 ∖ {[ pf ]}).

(** [case <-pingTimeout.C] *)
Definition on_timeout (w : Loop) : Loop :=
  if decide (size (replyPending w) = 0%nat) then
    {| sel := sel w; sequenceNo := sequenceNo w;
       replyPending := replyPending w; timeoutArmed := false;
       stats := stats w; probes := probes w;
       reselections := reselections w |}
  else
    let '(st, pending) :=
      foldl (expire (sel w)) (stats w, replyPending w)
            (elements (replyPending w)) in
    {| sel := reselectPath st (sel w); sequenceNo := sequenceNo w;
       replyPending := pending; timeoutArmed := false;
       stats := st; probes := probes w;
       reselections := S (reselections w) |}.

(** [run], driven by the events its [select] receives, in order; it
    returns at [Done] and at the end of the events given. *)
Fixpoint run (events : list Event) (w : Loop) : Result Loop :=
  match events with
  | [] => Ok w
  | Done :: _ => Ok w
  | Tick :: rest => w' ← on_tick w; run rest w'
  | ReplyEv r :: rest => run rest (on_reply r w)
  | TimeoutEv :: rest => run rest (on_timeout w)
  end.

Definition Path (s : t) : Result (option Path) :=
  if decide (len (paths s) = 0) then Ok None
  else p ← index (paths s) (current s); Ok (Some p).

End Methods.

End PingingSelector.

#[global] Instance DefaultSelector_Selector `{StatsQueries}
    : Selector DefaultSelector.t := {|
  sel_Path := DefaultSelector.Path;
  sel_Initialize := λ _ local remote ps s,
    Ok (DefaultSelector.Initialize local remote ps s);
  sel_Refresh := λ _ ps s, DefaultSelector.Refresh ps s;
  sel_PathDown := DefaultSelector.PathDown
|}.

#[global] Instance PingingSelector_Selector `{StatsQueries}
    : Selector PingingSelector.t := {|
  sel_Path := PingingSelector.Path;
  sel_Initialize := λ st local remote ps s,
    Ok (PingingSelector.Initialize st local remote ps s);
  sel_Refresh := λ st ps s, Ok (PingingSelector.Refresh st ps s);
  sel_PathDown := λ st pf pi s, Ok (PingingSelector.PathDown st pf pi s)
|}.

#[global] Instance FabridSelector_Selector `{StatsQueries} `{ControlPlane}
    : Selector FabridSelector.t := {|
  sel_Path := FabridSelector.Path;
  sel_Initialize := λ _ local remote ps s,
    FabridSelector.Initialize local remote ps s;
  sel_Refresh := λ _ ps s, FabridSelector.Refresh ps s;
  sel_PathDown := FabridSelector.PathDown
|}.

(** ** The reply cache of listening sockets *)

(** The constant [defaultSelectorMaxReplyPaths] is declared outside these
    files. *)
Class ReplyConfig := { defaultSelectorMaxReplyPaths : Z }.

(** [paths[i] = x] *)
Definition set_index {A} (l : list A) (i : Z) (x : A) : Result (list A) :=
  if decide (0 ≤ i < len l) then Ok (<[Z.to_nat i := x]> l)
  else Panic IndexOutOfRange.

Module pathsMRU.

(** The search loop of [insert], entered at index [i] with [paths[i:]]. *)
Fixpoint insert_loop (fp : PathFingerprint) (paths_from_i : list Path)
    (i : Z) : Z :=
  match paths_from_i with
  | [] => i
  | p :: rest =>
      if decide (Fingerprint p = fp) then i
      else insert_loop fp rest (i + 1)
  end.

(** [insert].  The slot that [append(paths, nil)] adds is written by
    [paths[i] = path] on the next line and never read before; the model
    appends [path] itself.  [copy(paths[1:i+1], paths[0:i])] moves
    entries [0..i-1] one place up. *)
Definition insert (path : Path) (maxEntries : Z) (paths : list Path)
    : Result (list Path) :=
  let i := insert_loop (Fingerprint path) paths 0 in
  let '(paths, i) :=
    if decide (i = len paths) then
      if decide (len paths < maxEntries) then (paths ++ [path], i)
      else (paths, len paths - 1)
    else (paths, i) in
  paths ← set_index paths i path;
  if decide (i ≠ 0) then
    pi ← index paths i;
    Ok (pi :: take (Z.to_nat i) paths ++ drop (Z.to_nat (i + 1)) paths)
  else Ok paths.

End pathsMRU.

Record remoteEntry := { re_paths : list Path; re_seen : Z }.

Class ReplySelector (S : Type) := {
  rs_Path : UDPAddr → S → option Path;
  rs_Record : Z → UDPAddr → option Path → S → Result S
}.

Module DefaultReplySelector.

Record t := { remotes : gmap UDPAddr remoteEntry }.

Definition NewDefaultReplySelector : t := {| remotes := ∅ |}.

(** [Record]; [now] is the value of [time.Now()], a nil [path] is
    [None], and a missing map entry reads as the zero [remoteEntry]. *)
Definition Record_ `{ReplyConfig} (now : Z) (remote : UDPAddr)
    (path : option Path) (s : t) : Result t :=
  match path with
  | None => Ok s
  | Some path =>
      let r := default {| re_paths := []; re_seen := 0 |}
                       (remotes s !! remote) in
      paths ← pathsMRU.insert path defaultSelectorMaxReplyPaths (re_paths r);
      Ok {| remotes :=
              <[remote := {| re_paths := paths; re_seen := now |}]>
                (remotes s) |}
  end.

Definition Path (remote : UDPAddr) (s : t) : option Path :=
  match remotes s !! remote with
  | None => None
  | Some r =>
      if decide (len (re_paths r) = 0) then None else head (re_paths r)
  end.

End DefaultReplySelector.

#[global] Instance DefaultReplySelector_ReplySelector `{ReplyConfig}
    : ReplySelector DefaultReplySelector.t := {|
  rs_Path := DefaultReplySelector.Path;
  rs_Record := DefaultReplySelector.Record_
|}.

Record ReplySelectorObj := {
  rs_type : Type;
  rs_methods : ReplySelector rs_type;
  rs_state : rs_type
}.

(** ** Connections *)

Inductive GoError :=
| errBadDstAddress
| errNoPathTo (ia : IA)
| errOther (code : Z).

(** A [net.Addr], by its dynamic type. *)
Inductive net_Addr :=
| Addr_UDPAddr (a : UDPAddr)
| Addr_other (network : string).

Record Msg :=
  { msg_src : UDPAddr; msg_dst : UDPAddr; msg_path : option Path;
    msg_payload : list Z; msg_e2e : option Z }.

(** The raw connection, seen through the packets handed to it, newest
    first. *)
Record baseUDPConn := { written : list Msg }.

Class Transport := { writeMsg_result : list Msg → Msg → Z * option GoError }.

(** Modelled from the spec: [baseUDPConn.writeMsg] is not among the sources;
    "write accepts (local, remote, optional explicit path, payload, optional
    extension header) and returns bytes written or a transport error". *)
Definition writeMsg `{Transport} (c : baseUDPConn) (src dst : UDPAddr)
    (path : option Path) (b : list Z) (e2e : option Z)
    : baseUDPConn * (Z * option GoError) :=
  let m := {| msg_src := src; msg_dst := dst; msg_path := path;
              msg_payload := b; msg_e2e := e2e |} in
  ({| written := m :: written c |}, writeMsg_result (written c) m).

(** The host: its domain, the address helpers, the socket layer and the
    path pool, each answering an error on the left. *)
Class HostEnv := {
  host_ia : IA;
  defaultLocalAddr : IP * Z → GoError + IP * Z;
  OpenRaw : IP * Z → GoError + IP * Z;
  pool_subscribe : IA → GoError + list Path
}.

(** A [Policy] interface value is its [Filter]; [None] is nil. *)
Definition filtered (policy : option (list Path → list Path))
    (paths : list Path) : list Path :=
  match policy with
  | Some Filter => Filter paths
  | None => paths
  end.

(** [pathRefreshSubscriber].  Its [target] is the selector of the
    connection that owns it: one object, kept in the connection. *)
Record pathRefreshSubscriber :=
  { remoteIA : IA; sub_policy : option (list Path → list Path) }.

Definition with_state (o : SelectorObj) (s : sel_type o) : SelectorObj :=
  {| sel_type := sel_type o; sel_methods := sel_methods o; sel_state := s |}.

Definition openPathRefreshSubscriber `{HostEnv} (st : list StatsCall)
    (local remote : UDPAddr) (policy : option (list Path → list Path))
    (target : SelectorObj)
    : Result (GoError + pathRefreshSubscriber * SelectorObj) :=
  match pool_subscribe (ua_IA remote) with
  | inl err => Ok (inl err)
  | inr paths =>
      s' ← @sel_Initialize _ (sel_methods target) st local remote
             (filtered policy paths) (sel_state target);
      Ok (inr ({| remoteIA := ua_IA remote; sub_policy := policy |},
               with_state target s'))
  end.

Module dialedConn.

Record t :=
  { base : baseUDPConn;
    local : UDPAddr;
    remote : UDPAddr;
    subscriber : option pathRefreshSubscriber;
    selector : option SelectorObj }.

(** [c.selector.Path()]; a nil interface value faults. *)
Definition selector_Path (c : t) : Result (option Path) :=
  match selector c with
  | None => Panic NilDereference
  | Some o => @sel_Path _ (sel_methods o) (sel_state o)
  end.

(** [Write]: the raw connection after the call, and what is returned. *)
Definition Write `{Transport} (b : list Z) (c : t)
    : Result (baseUDPConn * (Z * option GoError)) :=
  if decide (ua_IA (local c) ≠ ua_IA (remote c)) then
    path ← selector_Path c;
    match path with
    | None => Ok (base c, (0, Some (errNoPathTo (ua_IA (remote c)))))
    | Some p => Ok (writeMsg (base c) (local c) (remote c) (Some p) b None)
    end
  else Ok (writeMsg (base c) (local c) (remote c) None b None).

Definition WriteVia `{Transport} (path : option Path) (b : list Z) (c : t)
    : baseUDPConn * (Z * option GoError) :=
  writeMsg (base c) (local c) (remote c) path b None.

(** [pathRefreshSubscriber.refresh] and [.PathDown], on the connection
    that holds the target. *)
Definition refresh (st : list StatsCall) (paths : list Path) (c : t)
    : Result t :=
  match subscriber c, selector c with
  | Some sub, Some o =>
      s' ← @sel_Refresh _ (sel_methods o) st
             (filtered (sub_policy sub) paths) (sel_state o);
      Ok {| base := base c; local := local c; remote := remote c;
            subscriber := subscriber c;
            selector := Some (with_state o s') |}
  | _, _ => Ok c
  end.

Definition PathDown (st : list StatsCall) (pf : PathFingerprint)
    (pi : PathInterface) (c : t) : Result t :=
  match subscriber c, selector c with
  | Some sub, Some o =>
      s' ← @sel_PathDown _ (sel_methods o) st pf pi (sel_state o);
      Ok {| base := base c; local := local c; remote := remote c;
            subscriber := subscriber c;
            selector := Some (with_state o s') |}
  | _, _ => Ok c
  end.

End dialedConn.

(** [NewDefaultSelector()] as a [Selector] value. *)
Definition DefaultSelector_obj `{StatsQueries} : SelectorObj :=
  {| sel_type := DefaultSelector.t;
     sel_methods := DefaultSelector_Selector;
     sel_state := DefaultSelector.NewDefaultSelector |}.

(** [DialUDP]; the raw connection starts with nothing written. *)
Definition DialUDP `{StatsQueries} `{HostEnv} (st : list StatsCall)
    (local : IP * Z) (remote : UDPAddr)
    (policy : option (list Path → list Path))
    (selector : option SelectorObj) : Result (GoError + dialedConn.t) :=
  match defaultLocalAddr local with
  | inl err => Ok (inl err)
  | inr local =>
      match OpenRaw local with
      | inl err => Ok (inl err)
      | inr ipport =>
          let localUDPAddr :=
            {| ua_IA := host_ia; ua_IP := ipport.1; ua_Port := ipport.2 |} in
          if decide (ua_IA remote ≠ ua_IA localUDPAddr) then
            let selector := default DefaultSelector_obj selector in
            r ← openPathRefreshSubscriber st localUDPAddr remote policy selector;
            match r with
            | inl err => Ok (inl err)
            | inr (subscriber, selector) =>
                Ok (inr {| dialedConn.base := {| written := [] |};
                           dialedConn.local := localUDPAddr;
                           dialedConn.remote := remote;
                           dialedConn.subscriber := Some subscriber;
                           dialedConn.selector := Some selector |})
            end
          else
            Ok (inr {| dialedConn.base := {| written := [] |};
                       dialedConn.local := localUDPAddr;
                       dialedConn.remote := remote;
                       dialedConn.subscriber := None;
                       dialedConn.selector := selector |})
      end
  end.

Module listenConn.

Record t :=
  { base : baseUDPConn;
    local : UDPAddr;
    selector : ReplySelectorObj }.

Definition WriteToVia `{Transport} (b : list Z) (dst : UDPAddr)
    (path : option Path) (c : t) : baseUDPConn * (Z * option GoError) :=
  writeMsg (base c) (local c) dst path b None.

(** [WriteTo]: the raw connection after the call, and what is returned. *)
Definition WriteTo `{Transport} (b : list Z) (dst : net_Addr) (c : t)
    : baseUDPConn * (Z * option GoError) :=
  match dst with
  | Addr_other _ => (base c, (0, Some errBadDstAddress))
  | Addr_UDPAddr sdst =>
      if decide (ua_IA (local c) ≠ ua_IA sdst) then
        match @rs_Path _ (rs_methods (selector c)) sdst
                (rs_state (selector c)) with
        | None => (base c, (0, Some (errNoPathTo (ua_IA sdst))))
        | Some p => WriteToVia b sdst (Some p) c
        end
      else WriteToVia b sdst None c
  end.

End listenConn.

(** ** Reading, policies and FABRID dialing *)

(** One result of [baseUDPConn.readMsg]: the byte count, the sender, the
    forwarding path of the packet and the error; the extension headers are
    left out. *)
Record Incoming :=
  { in_n : Z; in_remote : UDPAddr; in_fwPath : ForwardingPath;
    in_err : option GoError }.

(** [reversePathFromForwardingPath], declared outside these files: the
    path, nil as [None], and the error. *)
Class PathReverser := {
  reversePathFromForwardingPath :
    IA → IA → ForwardingPath → option Path * option GoError
}.

(** [pool.cachedPaths] *)
Class PoolCache := { pool_cachedPaths : IA → list Path }.

(** [dialedConn.Read] over the results the coming [readMsg] calls give, in
    order: what is returned and the results left; [None] when the loop is
    still waiting at the end of them. *)
Fixpoint dialedConn_Read (c : dialedConn.t) (queue : list Incoming)
    : option ((Z * option GoError) * list Incoming) :=
  match queue with
  | [] => None
  | m :: rest =>
      match in_err m with
      | Some err => Some ((in_n m, Some err), rest)
      | None =>
          if decide (in_remote m ≠ dialedConn.remote c)
          then dialedConn_Read c rest
          else Some ((in_n m, None), rest)
      end
  end.

(** [dialedConn.ReadVia], in the same way. *)
Fixpoint dialedConn_ReadVia `{PathReverser} (c : dialedConn.t)
    (queue : list Incoming)
    : option ((Z * option Path * option GoError) * list Incoming) :=
  match queue with
  | [] => None
  | m :: rest =>
      match in_err m with
      | Some err => Some ((in_n m, None, Some err), rest)
      | None =>
          if decide (in_remote m ≠ dialedConn.remote c)
          then dialedConn_ReadVia c rest
          else
            let '(path, err) :=
              reversePathFromForwardingPath (ua_IA (dialedConn.remote c))
                (ua_IA (dialedConn.local c)) (in_fwPath m) in
            match err with
            | Some _ => dialedConn_ReadVia c rest
            | None => Some ((in_n m, path, None), rest)
            end
      end
  end.

(** [dialedConn.GetPath] *)
Definition dialedConn_GetPath (c : dialedConn.t) : Result (option Path) :=
  match dialedConn.selector c with
  | None => Ok None
  | Some o => @sel_Path _ (sel_methods o) (sel_state o)
  end.

(** [dialedConn.SetPolicy] with [pathRefreshSubscriber.setPolicy]; the
    subscriber's target is the selector of the connection, and a nil
    target faults. *)
Definition dialedConn_SetPolicy `{PoolCache} (st : list StatsCall)
    (policy : option (list Path → list Path)) (c : dialedConn.t)
    : Result dialedConn.t :=
  match dialedConn.subscriber c with
  | None => Ok c
  | Some sub =>
      let paths := pool_cachedPaths (remoteIA sub) in
      match dialedConn.selector c with
      | None => Panic NilDereference
      | Some o =>
          s' ← @sel_Refresh _ (sel_methods o) st (filtered policy paths)
                 (sel_state o);
          Ok {| dialedConn.base := dialedConn.base c;
                dialedConn.local := dialedConn.local c;
                dialedConn.remote := dialedConn.remote c;
                dialedConn.subscriber :=
                  Some {| remoteIA := remoteIA sub; sub_policy := policy |};
                dialedConn.selector := Some (with_state o s') |}
      end
  end.

(** The zero [UDPAddr]. *)
Definition UDPAddr_zero : UDPAddr := {| ua_IA := 0; ua_IP := 0; ua_Port := 0 |}.

(** [listenConn.ReadFromVia] for one result [m] of [readMsg]; [now] is the
    clock value [Record] reads. *)
Definition listenConn_ReadFromVia `{PathReverser} (now : Z) (m : Incoming)
    (c : listenConn.t)
    : Result (listenConn.t * (Z * UDPAddr * option Path * option GoError)) :=
  match in_err m with
  | Some err => Ok (c, (in_n m, UDPAddr_zero, None, Some err))
  | None =>
      let remote := in_remote m in
      let '(path, err) :=
        reversePathFromForwardingPath (ua_IA remote)
          (ua_IA (listenConn.local c)) (in_fwPath m) in
      let o := listenConn.selector c in
      s' ← @rs_Record _ (rs_methods o) now remote path (rs_state o);
      Ok ({| listenConn.base := listenConn.base c;
             listenConn.local := listenConn.local c;
             listenConn.selector :=
               {| rs_type := rs_type o; rs_methods := rs_methods o;
                  rs_state := s' |} |},
          (in_n m, remote, path, err))
  end.

(** [listenConn.ReadFrom] *)
Definition listenConn_ReadFrom `{PathReverser} (now : Z) (m : Incoming)
    (c : listenConn.t)
    : Result (listenConn.t * (Z * UDPAddr * option GoError)) :=
  r ← listenConn_ReadFromVia now m c;
  Ok (r.1, (r.2.1.1.1, r.2.1.1.2, r.2.2)).

(** [openBaseUDPConn], and [serrors.WrapStr] on the error a failed step
    gave; the cause itself is not modelled. *)
Class FabridHost := {
  openBaseUDPConn : IP * Z → GoError + UDPAddr;
  WrapStr : string → GoError
}.

(** [NewFabridSelector(client, ctx)] as a [Selector] value. *)
Definition FabridSelector_obj `{StatsQueries} `{ControlPlane}
    (client_policy : Z) : SelectorObj :=
  {| sel_type := FabridSelector.t;
     sel_methods := FabridSelector_Selector;
     sel_state := FabridSelector.NewFabridSelector client_policy |}.

Record fabridDialedConn :=
  { fdc_dialedConn : dialedConn.t; fdc_fabridClient : Z }.

(** [DialUDPWithFabrid]; the client is known by its policy
    [fabridConfig.Policy].  The error of [defaultLocalAddr] is tested only
    after the client and the selector are made. *)
Definition DialUDPWithFabrid `{StatsQueries} `{ControlPlane} `{HostEnv}
    `{FabridHost} (st : list StatsCall) (local : IP * Z) (remote : UDPAddr)
    (policy : option (list Path → list Path)) (fabridConfig_Policy : Z)
    : Result (GoError + fabridDialedConn) :=
  match SVCInfo with
  | None => Ok (inl (WrapStr "Error getting services"))
  | Some services =>
      controlServiceInfo ← index services 0;
      match ResolveTCPAddr controlServiceInfo with
      | None => Ok (inl (WrapStr "Error resolving CS"))
      | Some controlAddr =>
          if grpc_DialContext_ok controlServiceInfo then
            let selector := FabridSelector_obj fabridConfig_Policy in
            match defaultLocalAddr local with
            | inl err => Ok (inl err)
            | inr local =>
                match openBaseUDPConn local with
                | inl err => Ok (inl err)
                | inr slocal =>
                    if decide (ua_IA remote ≠ ua_IA slocal) then
                      r ← openPathRefreshSubscriber st slocal remote policy
                            selector;
                      match r with
                      | inl err => Ok (inl err)
                      | inr (subscriber, selector) =>
                          Ok (inr
                            {| fdc_dialedConn :=
                                 {| dialedConn.base := {| written := [] |};
                                    dialedConn.local := slocal;
                                    dialedConn.remote := remote;
                                    dialedConn.subscriber := Some subscriber;
                                    dialedConn.selector := Some selector |};
                               fdc_fabridClient := fabridConfig_Policy |})
                      end
                    else
                      Ok (inr
                        {| fdc_dialedConn :=
                             {| dialedConn.base := {| written := [] |};
                                dialedConn.local := slocal;
                                dialedConn.remote := remote;
                                dialedConn.subscriber := None;
                                dialedConn.selector := Some selector |};
                           fdc_fabridClient := fabridConfig_Policy |})
                end
            end
          else Ok (inl (WrapStr "Error connecting to CS"))
      end
  end.

(** ** Calls on a selector *)

Inductive SelectorCall :=
| CallInitialize (local remote : UDPAddr) (ps : list Path)
| CallRefresh (ps : list Path)
| CallPathDown (pf : PathFingerprint) (pi : PathInterface).

(** One call, with the registry as it is at the call. *)
Definition sel_call {S} `{Selector S} (call : list StatsCall * SelectorCall)
    (s : S) : Result S :=
  match call.2 with
  | CallInitialize local remote ps => sel_Initialize call.1 local remote ps s
  | CallRefresh ps => sel_Refresh call.1 ps s
  | CallPathDown pf pi => sel_PathDown call.1 pf pi s
  end.

Fixpoint sel_calls {S} `{Selector S}
    (calls : list (list StatsCall * SelectorCall)) (s : S) : Result S :=
  match calls with
  | [] => Ok s
  | call :: rest => s' ← sel_call call s; sel_calls rest s'
  end.

(** ** The example client's validation handler *)

Module hellofabrid.

Definition STRICT : bool := false.

(** [uint8(x)] for a non-negative [x]. *)
Definition uint8 (x : Z) : Z := x mod 256.

(** The fields of [fabrid.PathState] the handler touches; the counter
    [Stats.InvalidPackets] is unsigned, [stats_bits] wide. *)
Record PathState :=
  { ValidationRatio : Z; UpdateValRatio : bool; InvalidPackets : Z }.

(** The [ValidationHandler] of [runClient]: the state after the call and
    the error returned. *)
Definition ValidationHandler (stats_bits : Z) (pathState : PathState)
    (success : bool) : PathState * option GoError :=
  if success then (pathState, None)
  else
    let invalid := (InvalidPackets pathState + 1) mod 2 ^ stats_bits in
    let newValRatio := uint16 (uint16 (ValidationRatio pathState) * 2) in
    let newValRatio :=
      if decide (newValRatio > 255) then 255 else newValRatio in
    let pathState :=
      {| ValidationRatio := uint8 newValRatio; UpdateValRatio := true;
         InvalidPackets := invalid |} in
    if STRICT then (pathState, Some (errOther 0)) else (pathState, None).

End hellofabrid.

(** ** Concrete collaborators and sample data *)

Module Sample.

Definition mkPath (fp : string) (dp : DataplanePath)
    (ifs : list PathInterface) : Path :=
  {| path_ForwardingPath := {| dataplanePath := dp; underlay := 0 |};
     path_Metadata := {| Interfaces := ifs |};
     Fingerprint := fp |}.

Definition if_ (ia id : Z) : PathInterface := {| pi_IA := ia; pi_IfID := id |}.

Definition P1 : Path := mkPath "f1" (DP_SCION 1) [if_ 1 11; if_ 2 21].
Definition P2 : Path :=
  mkPath "f2" (DP_SCION 2) [if_ 1 12; if_ 3 31; if_ 3 32; if_ 2 22].
Definition P3 : Path := mkPath "f3" (DP_SCION 3) [if_ 1 13; if_ 2 23].

Definition here : UDPAddr := {| ua_IA := 1; ua_IP := 100; ua_Port := 4000 |}.
Definition there : UDPAddr := {| ua_IA := 2; ua_IP := 200; ua_Port := 5000 |}.
Definition neighbour : UDPAddr := {| ua_IA := 1; ua_IP := 101; ua_Port := 5000 |}.

(** A registry that prefers the first path and knows no path more alive. *)
Definition registry : StatsQueries :=
  {| LowestLatency := λ _ _ _, 0; FirstMoreAlive := λ _ _ _, -1 |}.

(** A pinger whose sends succeed and that reads a reply's path id [n] as
    the fingerprint of [Pn]. *)
Definition pinger : Pinger :=
  {| reversePathFingerprint := λ n,
       if decide (n = 1) then Some "f1"
       else if decide (n = 2) then Some "f2"
       else if decide (n = 3) then Some "f3" else None;
     pinger_Send_ok := λ _ _ _, true |}.

Definition transport : Transport :=
  {| writeMsg_result := λ _ m, (len (msg_payload m), None) |}.

Definition host : HostEnv :=
  {| host_ia := 1;
     defaultLocalAddr := λ a, inr a;
     OpenRaw := λ a, inr a;
     pool_subscribe := λ _, inr [P1; P2] |}.

Definition cache2 : ReplyConfig := {| defaultSelectorMaxReplyPaths := 2 |}.

(** A connection to another domain whose selector knows no path, one to
    the local domain with a nil selector, and a listening socket that has
    received nothing. *)
Definition pathless : dialedConn.t :=
  {| dialedConn.base := {| written := [] |};
     dialedConn.local := here;
     dialedConn.remote := there;
     dialedConn.subscriber :=
       Some {| remoteIA := 2; sub_policy := None |};
     dialedConn.selector := Some (@DefaultSelector_obj registry) |}.

Definition intra : dialedConn.t :=
  {| dialedConn.base := {| written := [] |};
     dialedConn.local := here;
     dialedConn.remote := neighbour;
     dialedConn.subscriber := None;
     dialedConn.selector := None |}.

Definition listener : listenConn.t :=
  {| listenConn.base := {| written := [] |};
     listenConn.local := here;
     listenConn.selector :=
       {| rs_type := DefaultReplySelector.t;
          rs_methods := @DefaultReplySelector_ReplySelector cache2;
          rs_state := DefaultReplySelector.NewDefaultReplySelector |} |}.

(** The probing scenario: three candidates, all active; the echoes of
    the first and the third come back, the second is lost. *)
Definition prober : PingingSelector.t :=
  {| PingingSelector.Interval := 1000; PingingSelector.Timeout := 300;
     PingingSelector.paths := [P1; P2; P3];
     PingingSelector.current := 0;
     PingingSelector.local := UDPAddr_scionAddr here;
     PingingSelector.remote := UDPAddr_scionAddr there;
     PingingSelector.numActive := 3 |}.

Definition idle : PingingSelector.Loop :=
  {| PingingSelector.sel := prober;
     PingingSelector.sequenceNo := 6;
     PingingSelector.replyPending := ∅;
     PingingSelector.timeoutArmed := false;
     PingingSelector.stats := [];
     PingingSelector.probes := [];
     PingingSelector.reselections := 0 |}.

Definition echo (path_id rtt : Z) : Reply :=
  {| Error := None; Source_IA := 2; Source_Host := HostIP 200;
     reply_Path := path_id; SeqNumber := 7; RTT := rtt |}.

(** A registry that names the second path as the one more alive. *)
Definition registry_alive : StatsQueries :=
  {| LowestLatency := λ _ _ _, 0; FirstMoreAlive := λ _ _ _, 1 |}.

(** A control plane on which every step succeeds, and one whose daemon
    cannot list the services. *)
Definition cp_up : ControlPlane :=
  {| NewFABRIDDataplanePath_ok := λ _ _ _ _ _, true;
     SVCInfo := Some ["10.0.0.1:30252"];
     ResolveTCPAddr := λ _, Some 1;
     grpc_DialContext_ok := λ _, true |}.

Definition cp_down : ControlPlane :=
  {| NewFABRIDDataplanePath_ok := λ _ _ _ _ _, true;
     SVCInfo := None;
     ResolveTCPAddr := λ _, Some 1;
     grpc_DialContext_ok := λ _, true |}.

(** A host in domain 1 whose pool knows no path, the FABRID socket layer
    on it, a path library that reverses the forwarding path with underlay
    [n] to [Pn], and a pool cache. *)
Definition host_no_paths : HostEnv :=
  {| host_ia := 1;
     defaultLocalAddr := λ a, inr a;
     OpenRaw := λ a, inr a;
     pool_subscribe := λ _, inr [] |}.

Definition fabrid_host : FabridHost :=
  {| openBaseUDPConn := λ a, inr {| ua_IA := 1; ua_IP := a.1; ua_Port := a.2 |};
     WrapStr := λ _, errOther 1 |}.

Definition reverser : PathReverser :=
  {| reversePathFromForwardingPath := λ _ _ fw,
       if decide (underlay fw = 1) then (Some P1, None)
       else if decide (underlay fw = 2) then (Some P2, None)
       else (None, Some (errOther 2)) |}.

Definition pool_cache : PoolCache :=
  {| pool_cachedPaths := λ _, [P1; P2; P3] |}.

Definition packet (n : Z) (from : UDPAddr) (ul : Z) : Incoming :=
  {| in_n := n; in_remote := from;
     in_fwPath := {| dataplanePath := DP_other 0; underlay := ul |};
     in_err := None |}.

(** A pinger that cannot send on the second path, and the loop of a
    selector whose active count was set to -1. *)
Definition pinger_unreachable : Pinger :=
  {| reversePathFingerprint := @reversePathFingerprint pinger;
     pinger_Send_ok := λ _ p _, bool_decide (Fingerprint p ≠ "f2") |}.

Definition misconfigured : PingingSelector.Loop :=
  {| PingingSelector.sel := PingingSelector.SetActive (-1) prober;
     PingingSelector.sequenceNo := 6;
     PingingSelector.replyPending := ∅;
     PingingSelector.timeoutArmed := false;
     PingingSelector.stats := [];
     PingingSelector.probes := [];
     PingingSelector.reselections := 0 |}.

End Sample.

(** ** Statement vocabulary *)

(** [i] is the first position of fingerprint [fp] in [ps]. *)
Definition first_position (fp : string) (ps : list Path) (i : Z) : Prop :=
  (∃ q, index ps i = Ok q ∧ Fingerprint q = fp) ∧
  ∀ (j : nat) q, (j < Z.to_nat i)%nat → ps !! j = Some q → Fingerprint q ≠ fp.

(** What [Refresh] leaves behind when the selected path had fingerprint
    [fp]: the new list, and the index of [fp] in it or 0. *)
Definition refreshed (fp : string) (newps ps' : list Path) (current' : Z)
    : Prop :=
  ps' = newps ∧
  (fp ∈ Fingerprint <$> newps → first_position fp newps current') ∧
  (fp ∉ Fingerprint <$> newps → current' = 0).

(** An interior per-hop record: ingress [a], egress [b]. *)
Definition interior_hop (pol : Z) (a b : PathInterface) : FabridPolicyPerHop :=
  {| hop_Pol := pol; hop_IA := pi_IA a;
     hop_Ingress := uint16 (pi_IfID a); hop_Egress := uint16 (pi_IfID b) |}.

(** *** The reply cache, as the specification words it

    [dedup_fp h] keeps, from a history [h] written newest first, the newest
    path of each fingerprint; a cache of capacity [C] holds the first [C]
    of them. *)
Fixpoint dedup_fp (h : list Path) : list Path :=
  match h with
  | [] => []
  | p :: older =>
      p :: filter (λ q, Fingerprint q ≠ Fingerprint p) (dedup_fp older)
  end.

Definition mru_spec (C : nat) (h : list Path) : list Path :=
  take C (dedup_fp h).

(** One insertion: promote a fingerprint already present, else put the path
    in front, dropping the last entry when [C] entries are present. *)
Definition mru_insert_spec (C : nat) (path : Path) (paths : list Path)
    : list Path :=
  match list_find (λ q, Fingerprint q = Fingerprint path) paths with
  | Some (i, _) => path :: delete i paths
  | None =>
      if decide (length paths < C)%nat then path :: paths
      else path :: take (length paths - 1) paths
  end.

(** A sequence of [Record] calls, oldest first, each with its time stamp,
    remote and path. *)
Fixpoint Record_all `{ReplyConfig} (calls : list (Z * UDPAddr * option Path))
    (s : DefaultReplySelector.t) : Result DefaultReplySelector.t :=
  match calls with
  | [] => Ok s
  | call :: rest =>
      s' ← DefaultReplySelector.Record_ call.1.1 call.1.2 call.2 s;
      Record_all rest s'
  end.

(** The non-nil paths recorded for [remote], newest first. *)
Definition recorded (remote : UDPAddr)
    (calls : list (Z * UDPAddr * option Path)) : list Path :=
  reverse (omap (λ call : Z * UDPAddr * option Path,
                   if decide (call.1.2 = remote) then call.2 else None)
                calls).

(** The list held for [remote]; a missing entry holds none. *)
Definition cached (remote : UDPAddr) (s : DefaultReplySelector.t)
    : list Path :=
  match DefaultReplySelector.remotes s !! remote with
  | Some r => re_paths r
  | None => []
  end.

(** *** Probing rounds

    A round runs from a tick to the event that empties [replyPending];
    between the two the loop receives replies and time-outs only. *)
Definition round_event (e : PingingSelector.Event) : Prop :=
  match e with
  | PingingSelector.ReplyEv _ | PingingSelector.TimeoutEv => True
  | _ => False
  end.

(** The reply [r] is an echo from [remote] with sequence number [seq] that
    came over the path with fingerprint [pf]. *)
Definition answers `{Pinger} (remote : scionAddr) (seq : Z) (r : Reply)
    (pf : string) : bool :=
  match Error r, Source_Host r with
  | None, HostIP ip =>
      bool_decide ({| sa_IA := Source_IA r; sa_IP := ip |} = remote)
      && bool_decide (SeqNumber r = seq)
      && bool_decide (reversePathFingerprint (reply_Path r) = Some pf)
  | _, _ => false
  end.

(** What the events [evs] of a round decide for an awaited fingerprint:
    the round-trip time of the first reply that answers it, the time-out
    value if the timer fires first, nothing yet otherwise. *)
Fixpoint outcome `{Pinger} (remote : scionAddr) (timeout : Duration)
    (seq : Z) (evs : list PingingSelector.Event) (pf : string)
    : option Duration :=
  match evs with
  | [] => None
  | PingingSelector.ReplyEv r :: rest =>
      if answers remote seq r pf then Some (RTT r)
      else outcome remote timeout seq rest pf
  | PingingSelector.TimeoutEv :: _ => Some timeout
  | _ :: rest => outcome remote timeout seq rest pf
  end.

(** The latency samples the registry holds for [(remote, pf)], newest
    first. *)
Definition samples_for (remote : scionAddr) (pf : string)
    (st : list StatsCall) : list Duration :=
  omap (λ c, match c with
             | RecordLatencyCall r pf' d =>
                 if decide (r = remote ∧ pf' = pf) then Some d else None
             | NotifyPathDownCall _ _ => None
             end) st.

(** The probe [sendPings] sends on path [p]. *)
Definition probe_of (s : PingingSelector.t) (seq : Z) (p : Path) : Probe :=
  {| probe_remote := PingingSelector.remote s;
     probe_Path := dataplanePath (path_ForwardingPath p);
     probe_NextHop := underlay (path_ForwardingPath p);
     probe_seq := seq |}.

(** The state [w1] a tick leaves behind when it comes in state [w] with
    [k] paths to probe. *)
Definition ticked `{Pinger} (k : Z) (w w1 : PingingSelector.Loop) : Prop :=
  if decide (k = 0) then w1 = w
  else
    let active := take (Z.to_nat k) (PingingSelector.paths (PingingSelector.sel w)) in
    let seq := uint16 (PingingSelector.sequenceNo w + 1) in
    PingingSelector.sel w1 = PingingSelector.sel w ∧
    PingingSelector.sequenceNo w1 = seq ∧
    PingingSelector.replyPending w1
    = PingingSelector.replyPending w ∪ list_to_set (Fingerprint <$> active) ∧
    PingingSelector.timeoutArmed w1 = true ∧
    PingingSelector.stats w1 = PingingSelector.stats w ∧
    PingingSelector.reselections w1 = PingingSelector.reselections w ∧
    PingingSelector.probes w1
    = reverse (probe_of (PingingSelector.sel w) seq <$> active)
      ++ PingingSelector.probes w.

(** What holds between the state [w] in which a round is and the state
    [w2] the events [evs] lead to: the identities used to match replies are
    kept; a fingerprint is still awaited when it was and [evs] decide
    nothing for it; the registry has gained, for an awaited fingerprint,
    the one sample [evs] decide, and none for others; and the loop has not
    reselected while fingerprints are still awaited. *)
Definition round_inv `{Pinger} (evs : list PingingSelector.Event)
    (w w2 : PingingSelector.Loop) : Prop :=
  let R := PingingSelector.remote (PingingSelector.sel w) in
  let T := PingingSelector.Timeout (PingingSelector.sel w) in
  let q := PingingSelector.sequenceNo w in
  (PingingSelector.remote (PingingSelector.sel w2) = R ∧
   PingingSelector.Timeout (PingingSelector.sel w2) = T ∧
   PingingSelector.sequenceNo w2 = q) ∧
  (∀ pf, pf ∈ PingingSelector.replyPending w2 ↔
         pf ∈ PingingSelector.replyPending w ∧ outcome R T q evs pf = None) ∧
  (∀ pf, samples_for R pf (PingingSelector.stats w2)
         = (if decide (pf ∈ PingingSelector.replyPending w)
            then option_list (outcome R T q evs pf) else [])
           ++ samples_for R pf (PingingSelector.stats w)) ∧
  (PingingSelector.replyPending w2 ≠ ∅ →
   PingingSelector.reselections w2 = PingingSelector.reselections w).

(** *** Selector states

    The index of a selector points into its list, or the list is empty. *)
Definition selection_valid (ps : list Path) (cur : Z) : Prop :=
  ps = [] ∨ 0 ≤ cur < len ps.

(** *** What the probing loop keeps

    [w'] has the candidates, the identities and the settings of [w], a
    sequence number within 16 bits when [w] has one, and logs that extend
    those of [w]. *)
Definition loop_extends (w w' : PingingSelector.Loop) : Prop :=
  let s := PingingSelector.sel w in
  let s' := PingingSelector.sel w' in
  PingingSelector.paths s' = PingingSelector.paths s ∧
  PingingSelector.remote s' = PingingSelector.remote s ∧
  PingingSelector.local s' = PingingSelector.local s ∧
  PingingSelector.Interval s' = PingingSelector.Interval s ∧
  PingingSelector.Timeout s' = PingingSelector.Timeout s ∧
  PingingSelector.numActive s' = PingingSelector.numActive s ∧
  (0 ≤ PingingSelector.sequenceNo w < 65536 →
   0 ≤ PingingSelector.sequenceNo w' < 65536) ∧
  (∃ new, PingingSelector.stats w' = new ++ PingingSelector.stats w) ∧
  (∃ sent, PingingSelector.probes w' = sent ++ PingingSelector.probes w) ∧
  (PingingSelector.reselections w ≤ PingingSelector.reselections w')%nat.

(** *** Reading

    A result of [readMsg] that [dialedConn.Read] passes over: no error,
    and a sender other than the connected remote. *)
Definition foreign_packet (c : dialedConn.t) (m : Incoming) : Prop :=
  in_err m = None ∧ in_remote m ≠ dialedConn.remote c.

(** A result that [dialedConn.ReadVia] passes over: no error, and either a
    sender other than the remote or a path that does not reverse. *)
Definition unusable_packet `{PathReverser} (c : dialedConn.t) (m : Incoming)
    : Prop :=
  in_err m = None ∧
  (in_remote m ≠ dialedConn.remote c ∨
   (reversePathFromForwardingPath (ua_IA (dialedConn.remote c))
      (ua_IA (dialedConn.local c)) (in_fwPath m)).2 ≠ None).

(** *** The example client

    [n] failed validations in a row, each handled by the client's
    [ValidationHandler]. *)
Definition failures (stats_bits : Z) (n : nat) (st : hellofabrid.PathState)
    : hellofabrid.PathState :=
  Nat.iter n (λ st, (hellofabrid.ValidationHandler stats_bits st false).1) st.

(** ** Basic facts *)

Lemma index_Ok {A} (l : list A) (i : Z) (x : A) :
  index l i = Ok x ↔ 0 ≤ i ∧ l !! Z.to_nat i = Some x.
Proof.
  unfold index. destruct (decide (0 ≤ i)) as [Hi|Hi].
  - destruct (l !! Z.to_nat i) eqn:E; split; intros H.
    + inversion H; subst; auto.
    + destruct H as [_ H]. by inversion H.
    + discriminate.
    + by destruct H.
  - split; [discriminate | intros [? _]; lia].
Qed.

Lemma index_nil {A} (i : Z) : index (@nil A) i = Panic IndexOutOfRange.
Proof. unfold index. destruct (decide _); [by rewrite lookup_nil | done]. Qed.

Lemma index_Ok_len {A} (l : list A) (i : Z) (x : A) :
  index l i = Ok x → 0 ≤ i < len l.
Proof.
  rewrite index_Ok. intros [Hi Hl]. apply lookup_lt_Some in Hl.
  unfold len. lia.
Qed.

Lemma Refresh_loop_found fp ps i nc :
  fp ∈ Fingerprint <$> ps →
  ∃ (k : nat) q, Refresh_loop fp ps i nc = i + Z.of_nat k ∧
    ps !! k = Some q ∧ Fingerprint q = fp ∧
    ∀ (j : nat) q', (j < k)%nat → ps !! j = Some q' → Fingerprint q' ≠ fp.
Proof.
  revert i. induction ps as [|p ps IH]; intros i Hin; simpl in *.
  - by apply elem_of_nil in Hin.
  - destruct (decide (Fingerprint p = fp)) as [Heq|Hne].
    + exists 0%nat, p. repeat split; auto; [lia | intros; lia].
    + apply elem_of_cons in Hin as [Hin|Hin]; [congruence|].
      destruct (IH (i + 1) Hin) as (k & q & Hr & Hq & Hfp & Hfirst).
      exists (S k), q. repeat split; auto; [lia|].
      intros [|j] q' Hj Hl; simpl in Hl.
      * by inversion Hl; subst.
      * apply (Hfirst j); [lia | done].
Qed.

Lemma Refresh_loop_absent fp ps i nc :
  fp ∉ Fingerprint <$> ps → Refresh_loop fp ps i nc = nc.
Proof.
  revert i. induction ps as [|p ps IH]; intros i Hnin; simpl in *; [done|].
  rewrite not_elem_of_cons in Hnin. destruct Hnin as [Hne Hnin].
  destruct (decide (Fingerprint p = fp)); [congruence | by apply IH].
Qed.

Lemma Refresh_loop_refreshed fp newps :
  refreshed fp newps newps (Refresh_loop fp newps 0 0).
Proof.
  split; [done|]. split.
  - intros Hin.
    destruct (Refresh_loop_found fp newps 0 0 Hin)
      as (k & q & Hr & Hq & Hfp & Hfirst).
    rewrite Hr. replace (0 + Z.of_nat k) with (Z.of_nat k) by lia.
    split.
    + exists q. split; [|done]. apply index_Ok. rewrite Nat2Z.id.
      split; [lia | done].
    + intros j q'. rewrite Nat2Z.id. apply Hfirst.
  - apply Refresh_loop_absent.
Qed.

(** ** Refresh of the pinning selectors *)

(** C1.  For a [DefaultSelector] and for a [FabridSelector] whose selected
    path exists and has fingerprint [fp] (so the path list is not empty),
    [Refresh] with any new list succeeds and stores that list; if [fp]
    occurs in the new list the new index is the first position of [fp] in
    it, so the selected fingerprint is unchanged; otherwise the index is
    0. *)
Theorem Refresh_keeps_selected_fingerprint
    (ps newps : list Path) (cur pol : Z) (p : Path) :
  index ps cur = Ok p →
  (∃ s', DefaultSelector.Refresh newps
           {| DefaultSelector.paths := ps; DefaultSelector.current := cur |}
         = Ok s' ∧
         refreshed (Fingerprint p) newps
           (DefaultSelector.paths s') (DefaultSelector.current s')) ∧
  (∃ s', FabridSelector.Refresh newps
           {| FabridSelector.paths := ps; FabridSelector.current := cur;
              FabridSelector.policy := pol |}
         = Ok s' ∧
         refreshed (Fingerprint p) newps
           (FabridSelector.paths s') (FabridSelector.current s')).
Proof.
  intros Hcur. pose proof (index_Ok_len _ _ _ Hcur) as Hlen.
  split.
  - unfold DefaultSelector.Refresh. simpl.
    destruct (decide (len ps > 0)) as [_|Hn]; [|lia].
    rewrite Hcur. simpl. eexists. split; [reflexivity|].
    apply Refresh_loop_refreshed.
  - unfold FabridSelector.Refresh. simpl.
    destruct (decide (len ps > 0)) as [_|Hn]; [|lia].
    rewrite Hcur. simpl. eexists. split; [reflexivity|].
    apply Refresh_loop_refreshed.
Qed.

Lemma Refresh_keeps_selected_fingerprint_witness :
  index [Sample.P1; Sample.P2] 1 = Ok Sample.P2 ∧
  ∃ s', DefaultSelector.Refresh [Sample.P3; Sample.P2; Sample.P1]
          {| DefaultSelector.paths := [Sample.P1; Sample.P2];
             DefaultSelector.current := 1 |} = Ok s' ∧
        refreshed "f2" [Sample.P3; Sample.P2; Sample.P1]
          (DefaultSelector.paths s') (DefaultSelector.current s').
Proof.
  split; [reflexivity|].
  exact (proj1 (Refresh_keeps_selected_fingerprint
                  [Sample.P1; Sample.P2] [Sample.P3; Sample.P2; Sample.P1]
                  1 0 Sample.P2 eq_refl)).
Defined.

(** ** PathDown of the pinning selectors *)

(** X1.  A down notification that concerns neither the selected path's
    fingerprint nor one of its interfaces leaves a selector with a valid
    selection as it is. *)
Lemma PathDown_unrelated_noop `{StatsQueries} (st : list StatsCall)
    (pf : string) (pi : PathInterface) (ps : list Path) (cur pol : Z)
    (p : Path) :
  index ps cur = Ok p →
  pf ≠ Fingerprint p →
  pi ∉ Interfaces (path_Metadata p) →
  DefaultSelector.PathDown st pf pi
    {| DefaultSelector.paths := ps; DefaultSelector.current := cur |}
  = Ok {| DefaultSelector.paths := ps; DefaultSelector.current := cur |} ∧
  FabridSelector.PathDown st pf pi
    {| FabridSelector.paths := ps; FabridSelector.current := cur;
       FabridSelector.policy := pol |}
  = Ok {| FabridSelector.paths := ps; FabridSelector.current := cur;
          FabridSelector.policy := pol |}.
Proof.
  intros Hcur Hpf Hpi.
  unfold DefaultSelector.PathDown, FabridSelector.PathDown,
    isInterfaceOnPath. simpl. rewrite Hcur. simpl.
  rewrite (bool_decide_eq_false_2 _ Hpi), (bool_decide_eq_false_2 _ Hpf).
  done.
Qed.

(** C4.  On a selector that holds no paths, which is what [Initialize] with
    an empty list and [NewFabridSelector] leave behind, [PathDown] faults
    on [s.paths[s.current]] for every fingerprint and interface. *)
Theorem PathDown_without_paths_faults `{StatsQueries} (st : list StatsCall)
    (pf : string) (pi : PathInterface) (local remote : UDPAddr)
    (s : DefaultSelector.t) (pol : Z) :
  DefaultSelector.PathDown st pf pi
    (DefaultSelector.Initialize local remote [] s) = Panic IndexOutOfRange ∧
  FabridSelector.PathDown st pf pi (FabridSelector.NewFabridSelector pol)
  = Panic IndexOutOfRange.
Proof. split; reflexivity. Qed.

(** ** Initialize *)

(** C10.  [FabridSelector.Initialize] faults on an empty path list and on a
    first path without interface metadata; [DefaultSelector.Initialize]
    takes the empty list, and [Path] then answers nil. *)
Theorem Initialize_on_empty_input `{ControlPlane} (local remote : UDPAddr)
    (fs : FabridSelector.t) (ds : DefaultSelector.t)
    (fw : ForwardingPath) (fp : string) (ps : list Path) :
  FabridSelector.Initialize local remote [] fs = Panic IndexOutOfRange ∧
  FabridSelector.Initialize local remote
    ({| path_ForwardingPath := fw;
        path_Metadata := {| Interfaces := [] |};
        Fingerprint := fp |} :: ps) fs = Panic IndexOutOfRange ∧
  DefaultSelector.Path (DefaultSelector.Initialize local remote [] ds)
  = Ok None.
Proof. repeat split; reflexivity. Qed.

(** ** The quality-probed selector *)

(** C5.  [Initialize], [Refresh] and [PathDown] of a [PingingSelector] each
    leave [current] equal to what [LowestLatency] answers for the remote
    and the list of paths then held, whatever was selected before. *)
Theorem PingingSelector_current_is_LowestLatency `{StatsQueries}
    (st : list StatsCall) (local remote : UDPAddr) (ps : list Path)
    (pf : string) (pi : PathInterface) (s : PingingSelector.t) :
  (let s' := PingingSelector.Initialize st local remote ps s in
   PingingSelector.paths s' = ps ∧
   PingingSelector.remote s' = UDPAddr_scionAddr remote ∧
   PingingSelector.current s'
   = LowestLatency st (PingingSelector.remote s') (PingingSelector.paths s')) ∧
  (let s' := PingingSelector.Refresh st ps s in
   PingingSelector.paths s' = ps ∧
   PingingSelector.remote s' = PingingSelector.remote s ∧
   PingingSelector.current s'
   = LowestLatency st (PingingSelector.remote s') (PingingSelector.paths s')) ∧
  (let s' := PingingSelector.PathDown st pf pi s in
   PingingSelector.paths s' = PingingSelector.paths s ∧
   PingingSelector.remote s' = PingingSelector.remote s ∧
   PingingSelector.current s'
   = LowestLatency st (PingingSelector.remote s') (PingingSelector.paths s')).
Proof. repeat split. Qed.

(** ** The per-hop policy records of FabridSelector.Initialize *)

Lemma pair_ind {A} (P : list A → Prop) :
  P [] → (∀ a, P [a]) → (∀ a b l, P l → P (a :: b :: l)) → ∀ l, P l.
Proof.
  intros H0 H1 H2 l.
  assert (P l ∧ ∀ a, P (a :: l)) as [? _]; [|done].
  induction l as [|x l [IH1 IH2]]; [by split|].
  split; [apply IH2 | intros a; by apply H2].
Qed.

Lemma Initialize_loop_app pol rest hops :
  FabridSelector.Initialize_loop pol rest hops
  = hops ++ FabridSelector.Initialize_loop pol rest [].
Proof.
  revert hops. induction rest as [|a|a b l IH] using pair_ind; intros hops;
    simpl; try by rewrite app_nil_r.
  rewrite IH, (IH [_]). by rewrite app_assoc.
Qed.

Lemma Initialize_loop_length pol rest :
  length (FabridSelector.Initialize_loop pol rest []) = (length rest / 2)%nat.
Proof.
  induction rest as [|a|a b l IH] using pair_ind; try done.
  simpl FabridSelector.Initialize_loop. rewrite Initialize_loop_app.
  rewrite length_app, IH. simpl length.
  change (S (S (length l))) with (1 * 2 + length l)%nat.
  rewrite Nat.div_add_l by lia. lia.
Qed.

Lemma Initialize_loop_lookup pol rest (k : nat) a b :
  rest !! (2 * k)%nat = Some a → rest !! (2 * k + 1)%nat = Some b →
  FabridSelector.Initialize_loop pol rest [] !! k
  = Some (interior_hop pol a b).
Proof.
  revert k. induction rest as [|x|x y l IH] using pair_ind; intros k Ha Hb.
  - by rewrite lookup_nil in Ha.
  - destruct k; simpl in *; [done|].
    replace (k + S (k + 0))%nat with (S (2 * k)) in Ha by lia. done.
  - simpl FabridSelector.Initialize_loop. rewrite Initialize_loop_app.
    destruct k as [|k].
    + simpl in *. by inversion Ha; inversion Hb; subst.
    + replace (2 * S k)%nat with (S (S (2 * k))) in Ha by lia.
      replace (2 * S k + 1)%nat with (S (S (2 * k + 1))) in Hb by lia.
      simpl in Ha, Hb. simpl. by apply IH.
Qed.

Lemma uint16_small (x : Z) : 0 ≤ x < 65536 → uint16 x = x.
Proof. intros. unfold uint16. by apply Z.mod_small. Qed.

(** What [Initialize] does with the records: when the first path carries a
    SCION dataplane path and every control-plane step succeeds, that path
    is stored with a FABRID dataplane path built from exactly these
    records, under the same fingerprint. *)
Lemma Initialize_installs_hops `{ControlPlane} (local remote : UDPAddr)
    (raw ul : Z) (md : PathMetadata) (fp : string) (rest : list Path)
    (s : FabridSelector.t) (hops : list FabridPolicyPerHop)
    (service : string) (services : list string) (controlAddr : Z) :
  let p := {| path_ForwardingPath :=
                {| dataplanePath := DP_SCION raw; underlay := ul |};
              path_Metadata := md; Fingerprint := fp |} in
  FabridSelector.Initialize_hops (FabridSelector.policy s) (Interfaces md)
  = Ok hops →
  (∀ ifs cfg, NewFABRIDDataplanePath_ok raw ifs hops cfg fp = true) →
  SVCInfo = Some (service :: services) →
  ResolveTCPAddr service = Some controlAddr →
  grpc_DialContext_ok service = true →
  ∃ s' f,
    FabridSelector.Initialize local remote (p :: rest) s = Ok s' ∧
    FabridSelector.current s' = 0 ∧
    FabridSelector.paths s'
    = {| path_ForwardingPath :=
           {| dataplanePath := DP_FABRID f; underlay := ul |};
         path_Metadata := md; Fingerprint := fp |} :: rest ∧
    fp_hops f = hops.
Proof.
  intros p Hhops Hnew Hsvc Hresolve Hdial.
  unfold FabridSelector.Initialize. simpl. rewrite Hhops. simpl.
  rewrite Hnew, Hsvc. simpl. rewrite Hresolve, Hdial.
  eexists _, _. split; [reflexivity|]. simpl. done.
Qed.

(** C7.  For a first path whose metadata lists the interfaces
    [i_0 .. i_(2n-1)], [n ≥ 1], [Initialize] builds [n+1] records: record 0
    has the domain of [i_0], its id as egress and no ingress; record [k],
    [1 ≤ k < n], has the domain and id of [i_(2k-1)] as ingress and the id
    of [i_(2k)] as egress; record [n] has the domain of [i_(2n-1)], its id
    as ingress and no egress.  Ids are stored through [uint16]. *)
Theorem Initialize_hops_per_boundary (pol : Z) (ifaces : list PathInterface)
    (n : nat) :
  (1 ≤ n)%nat →
  length ifaces = (2 * n)%nat →
  ∃ hops,
    FabridSelector.Initialize_hops pol ifaces = Ok hops ∧
    length hops = S n ∧
    (∀ i0, ifaces !! 0%nat = Some i0 →
       hops !! 0%nat
       = Some {| hop_Pol := pol; hop_IA := pi_IA i0; hop_Ingress := 0;
                 hop_Egress := uint16 (pi_IfID i0) |}) ∧
    (∀ (k : nat) a b, (1 ≤ k < n)%nat →
       ifaces !! (2 * k - 1)%nat = Some a → ifaces !! (2 * k)%nat = Some b →
       hops !! k
       = Some {| hop_Pol := pol; hop_IA := pi_IA a;
                 hop_Ingress := uint16 (pi_IfID a);
                 hop_Egress := uint16 (pi_IfID b) |}) ∧
    (∀ l, ifaces !! (2 * n - 1)%nat = Some l →
       hops !! n
       = Some {| hop_Pol := pol; hop_IA := pi_IA l;
                 hop_Ingress := uint16 (pi_IfID l); hop_Egress := 0 |}).
Proof.
  intros Hn Hlen.
  destruct ifaces as [|i0 rest]; [simpl in Hlen; lia|].
  assert (length rest = (2 * n - 1)%nat) as Hrest by (simpl in Hlen; lia).
  destruct (lookup_lt_is_Some_2 (i0 :: rest) (2 * n - 1)%nat) as [l Hl];
    [simpl; lia|].
  unfold FabridSelector.Initialize_hops.
  assert (index (i0 :: rest) 0 = Ok i0) as -> by done.
  assert (index (i0 :: rest) (len (i0 :: rest) - 1) = Ok l) as ->.
  { apply index_Ok. unfold len. split; [lia|].
    replace (Z.to_nat (Z.of_nat (length (i0 :: rest)) - 1))
      with (2 * n - 1)%nat by (simpl; lia). done. }
  simpl mbind. rewrite Initialize_loop_app. simpl drop. rewrite drop_0.
  remember (FabridSelector.Initialize_loop pol rest []) as inner eqn:Einner.
  assert (length inner = (n - 1)%nat) as Hinner.
  { subst inner. rewrite Initialize_loop_length, Hrest.
    replace (2 * n - 1)%nat with (1 + (n - 1) * 2)%nat by lia.
    rewrite Nat.div_add by lia. done. }
  eexists. split; [reflexivity|]. split; [|split; [|split]].
  - rewrite !length_app. simpl. lia.
  - intros i Hi. simpl in *. by inversion Hi.
  - intros k a b Hk Ha Hb.
    destruct k as [|k]; [lia|]. simpl.
    rewrite lookup_app_l by lia.
    replace (2 * S k - 1)%nat with (S (2 * k)) in Ha by lia.
    replace (2 * S k)%nat with (S (2 * k + 1)) in Hb by lia.
    simpl in Ha, Hb. subst inner. by apply Initialize_loop_lookup.
  - intros l' Hl'. rewrite Hl in Hl'. inversion Hl'; subst l'.
    destruct n as [|m]; [lia|]. simpl.
    rewrite lookup_app_r by lia.
    replace (m - length inner)%nat with 0%nat by lia. done.
Qed.

Lemma Initialize_hops_per_boundary_witness :
  ∃ hops,
    FabridSelector.Initialize_hops 9 (Interfaces (path_Metadata Sample.P2))
    = Ok hops ∧
    length hops = 3%nat ∧
    hops !! 1%nat
    = Some {| hop_Pol := 9; hop_IA := 3; hop_Ingress := 31; hop_Egress := 32 |}.
Proof.
  assert (1 ≤ 2)%nat as H12 by lia.
  destruct (Initialize_hops_per_boundary 9
              (Interfaces (path_Metadata Sample.P2)) 2 H12 eq_refl)
    as (hops & Hrun & Hlen & _ & Hmid & _).
  exists hops. split; [exact Hrun|]. split; [exact Hlen|].
  apply (Hmid 1%nat (Sample.if_ 3 31) (Sample.if_ 3 32)); [lia|done|done].
Defined.

(** ** Replies that do not belong to the round *)

(** C6.  A reply without error whose source is not the selector's remote,
    or whose sequence number is not the round's, or whose reversed path
    fingerprint is not awaited (or cannot be computed), leaves the registry
    and the awaited set as they were; [handlePingReply] has no error result
    at all. *)
Theorem handlePingReply_drops_foreign `{Pinger} (s : PingingSelector.t)
    (reply : Reply) (expectedReplies : gset string) (expectedSequenceNo : Z)
    (st : list StatsCall) :
  Error reply = None →
  (∀ ip, Source_Host reply = HostIP ip →
         {| sa_IA := Source_IA reply; sa_IP := ip |} ≠ PingingSelector.remote s)
  ∨ SeqNumber reply ≠ expectedSequenceNo
  ∨ (∀ pf, reversePathFingerprint (reply_Path reply) = Some pf →
           pf ∉ expectedReplies) →
  PingingSelector.handlePingReply s reply expectedReplies expectedSequenceNo st
  = (st, expectedReplies).
Proof.
  intros Herr Hcase. unfold PingingSelector.handlePingReply. rewrite Herr.
  destruct (Source_Host reply) as [ip| |] eqn:Hhost; try done.
  destruct (decide _) as [|Hmatch]; [done|].
  assert ({| sa_IA := Source_IA reply; sa_IP := ip |} = PingingSelector.remote s)
    as Hsrc by (apply dec_stable; intros ?; apply Hmatch; by left).
  assert (SeqNumber reply = expectedSequenceNo)
    as Hseq by (apply dec_stable; intros ?; apply Hmatch; by right).
  destruct Hcase as [Hc|[Hc|Hc]].
  - exfalso. by apply (Hc ip).
  - done.
  - destruct (reversePathFingerprint (reply_Path reply)) as [pf|]; [|done].
    destruct (decide (pf ∈ expectedReplies)) as [Hin|]; [|done].
    exfalso. by apply (Hc pf).
Qed.

Lemma handlePingReply_drops_foreign_witness :
  let s := {| PingingSelector.Interval := 1000; PingingSelector.Timeout := 300;
              PingingSelector.paths := [Sample.P1; Sample.P2];
              PingingSelector.current := 0;
              PingingSelector.local := UDPAddr_scionAddr Sample.here;
              PingingSelector.remote := UDPAddr_scionAddr Sample.there;
              PingingSelector.numActive := 2 |} in
  let stale := {| Error := None; Source_IA := 2; Source_Host := HostIP 200;
                  reply_Path := 1; SeqNumber := 6; RTT := 40 |} in
  @PingingSelector.handlePingReply Sample.pinger s stale {[ "f1"; "f2" ]} 7 []
  = ([], {[ "f1"; "f2" ]}).
Proof.
  intros s stale.
  apply (@handlePingReply_drops_foreign Sample.pinger s stale);
    [reflexivity | right; left; simpl; lia].
Defined.

(** ** Sending without a path *)

(** C8.  [dialedConn.Write] towards another domain, when the selector
    answers nil, returns [errNoPathTo] of the remote's domain and hands
    nothing to the raw connection; [listenConn.WriteTo] does the same when
    the reply selector answers nil, and returns [errBadDstAddress], again
    with nothing written, for a destination that is not a [UDPAddr].  The
    two errors differ, the raw connection is as it was before, and the
    same connection writes through it as soon as its selector answers a
    path. *)
Theorem no_path_is_returned_to_caller `{Transport} (c : dialedConn.t)
    (lc : listenConn.t) (b : list Z) (sdst : UDPAddr) (network : string) :
  ua_IA (dialedConn.local c) ≠ ua_IA (dialedConn.remote c) →
  dialedConn.selector_Path c = Ok None →
  ua_IA (listenConn.local lc) ≠ ua_IA sdst →
  @rs_Path _ (rs_methods (listenConn.selector lc)) sdst
    (rs_state (listenConn.selector lc)) = None →
  dialedConn.Write b c
  = Ok (dialedConn.base c,
        (0, Some (errNoPathTo (ua_IA (dialedConn.remote c))))) ∧
  listenConn.WriteTo b (Addr_UDPAddr sdst) lc
  = (listenConn.base lc, (0, Some (errNoPathTo (ua_IA sdst)))) ∧
  listenConn.WriteTo b (Addr_other network) lc
  = (listenConn.base lc, (0, Some errBadDstAddress)) ∧
  errNoPathTo (ua_IA sdst) ≠ errBadDstAddress ∧
  (∀ o p, @sel_Path _ (sel_methods o) (sel_state o) = Ok (Some p) →
     dialedConn.Write b
       {| dialedConn.base := dialedConn.base c;
          dialedConn.local := dialedConn.local c;
          dialedConn.remote := dialedConn.remote c;
          dialedConn.subscriber := dialedConn.subscriber c;
          dialedConn.selector := Some o |}
     = Ok (writeMsg (dialedConn.base c) (dialedConn.local c)
             (dialedConn.remote c) (Some p) b None)) ∧
  (∀ o p, @rs_Path _ (rs_methods o) sdst (rs_state o) = Some p →
     listenConn.WriteTo b (Addr_UDPAddr sdst)
       {| listenConn.base := listenConn.base lc;
          listenConn.local := listenConn.local lc;
          listenConn.selector := o |}
     = writeMsg (listenConn.base lc) (listenConn.local lc) sdst (Some p) b
         None).
Proof.
  intros Hia Hsel Hlia Hrs.
  split; [|split; [|split; [|split; [|split]]]].
  - unfold dialedConn.Write. destruct (decide _); [|done].
    by rewrite Hsel.
  - unfold listenConn.WriteTo. destruct (decide _); [|done].
    by rewrite Hrs.
  - done.
  - discriminate.
  - intros o p Hp. unfold dialedConn.Write, dialedConn.selector_Path. simpl.
    destruct (decide _); [|done]. by rewrite Hp.
  - intros o p Hp. unfold listenConn.WriteTo. simpl.
    destruct (decide _); [|done]. by rewrite Hp.
Qed.

Lemma no_path_is_returned_to_caller_witness :
  @dialedConn.Write Sample.transport [1; 2; 3] Sample.pathless
  = Ok ({| written := [] |}, (0, Some (errNoPathTo 2))) ∧
  @listenConn.WriteTo Sample.transport [1; 2; 3]
    (Addr_UDPAddr Sample.there) Sample.listener
  = ({| written := [] |}, (0, Some (errNoPathTo 2))) ∧
  @listenConn.WriteTo Sample.transport [1; 2; 3] (Addr_other "tcp")
    Sample.listener
  = ({| written := [] |}, (0, Some errBadDstAddress)) ∧
  errNoPathTo 2 ≠ errBadDstAddress.
Proof.
  destruct (@no_path_is_returned_to_caller Sample.transport Sample.pathless
              Sample.listener [1; 2; 3] Sample.there "tcp")
    as (Hw & Hto & Hbad & Hdiff & _);
    [simpl; lia | reflexivity | simpl; lia | reflexivity |].
  exact (conj Hw (conj Hto (conj Hbad Hdiff))).
Defined.

(** ** Sending inside the local domain *)

(** C9.  When local and remote are in one domain, [Write] hands the packet
    to the raw connection with a nil path whatever the selector field
    holds, nil included; and [DialUDP] towards the host's own domain makes
    no subscriber and keeps the selector argument as given, without
    initializing or replacing it. *)
Theorem local_Write_skips_selector `{StatsQueries} `{HostEnv} `{Transport}
    (c : dialedConn.t) (b : list Z) (st : list StatsCall)
    (local bound ipport : IP * Z) (remote : UDPAddr)
    (policy : option (list Path → list Path))
    (selector : option SelectorObj) :
  ua_IA (dialedConn.local c) = ua_IA (dialedConn.remote c) →
  defaultLocalAddr local = inr bound →
  OpenRaw bound = inr ipport →
  ua_IA remote = host_ia →
  (∀ sel',
     dialedConn.Write b
       {| dialedConn.base := dialedConn.base c;
          dialedConn.local := dialedConn.local c;
          dialedConn.remote := dialedConn.remote c;
          dialedConn.subscriber := dialedConn.subscriber c;
          dialedConn.selector := sel' |}
     = Ok (writeMsg (dialedConn.base c) (dialedConn.local c)
             (dialedConn.remote c) None b None)) ∧
  DialUDP st local remote policy selector
  = Ok (inr {| dialedConn.base := {| written := [] |};
               dialedConn.local :=
                 {| ua_IA := host_ia; ua_IP := ipport.1; ua_Port := ipport.2 |};
               dialedConn.remote := remote;
               dialedConn.subscriber := None;
               dialedConn.selector := selector |}).
Proof.
  intros Hia Hlocal Hraw Hremote. split.
  - intros sel'. unfold dialedConn.Write. simpl.
    destruct (decide _); [done|reflexivity].
  - unfold DialUDP. rewrite Hlocal, Hraw. simpl.
    destruct (decide _); [done|reflexivity].
Qed.

Lemma local_Write_skips_selector_witness :
  (∀ sel',
     @dialedConn.Write Sample.transport [7; 8]
       {| dialedConn.base := {| written := [] |};
          dialedConn.local := Sample.here;
          dialedConn.remote := Sample.neighbour;
          dialedConn.subscriber := None;
          dialedConn.selector := sel' |}
     = Ok (@writeMsg Sample.transport {| written := [] |} Sample.here
             Sample.neighbour None [7; 8] None)) ∧
  @DialUDP Sample.registry Sample.host [] (100, 4000) Sample.neighbour None None
  = Ok (inr {| dialedConn.base := {| written := [] |};
               dialedConn.local := Sample.here;
               dialedConn.remote := Sample.neighbour;
               dialedConn.subscriber := None;
               dialedConn.selector := None |}).
Proof.
  apply (@local_Write_skips_selector Sample.registry Sample.host
           Sample.transport Sample.intra [7; 8] [] (100, 4000) (100, 4000)
           (100, 4000) Sample.neighbour None None);
    reflexivity.
Defined.

(** ** The reply cache *)

Lemma insert_loop_list_find fp paths i :
  pathsMRU.insert_loop fp paths i
  = match list_find (λ q, Fingerprint q = fp) paths with
    | Some (k, _) => i + Z.of_nat k
    | None => i + len paths
    end.
Proof.
  revert i. induction paths as [|p paths IH]; intros i; simpl.
  - unfold len. simpl. lia.
  - destruct (decide (Fingerprint p = fp)); simpl; [lia|].
    rewrite IH. unfold len. simpl.
    destruct (list_find _ paths) as [[k q]|]; simpl; lia.
Qed.

Lemma set_index_Ok {A} (l : list A) (k : nat) (x : A) :
  (k < length l)%nat → set_index l (Z.of_nat k) x = Ok (<[k := x]> l).
Proof.
  intros Hk. unfold set_index, len.
  destruct (decide _); [by rewrite Nat2Z.id | lia].
Qed.

Lemma insert_refines_spec (path : Path) (C : Z) (paths : list Path) :
  1 ≤ C →
  pathsMRU.insert path C paths
  = Ok (mru_insert_spec (Z.to_nat C) path paths).
Proof.
  intros HC. unfold pathsMRU.insert, mru_insert_spec.
  rewrite insert_loop_list_find.
  destruct (list_find _ paths) as [[k q]|] eqn:Hfind.
  - apply list_find_Some in Hfind as (Hk & _ & _).
    pose proof (lookup_lt_Some _ _ _ Hk) as Hlt.
    destruct (decide (0 + Z.of_nat k = len paths)) as [E|_];
      [unfold len in E; lia|].
    replace (0 + Z.of_nat k) with (Z.of_nat k) by lia.
    rewrite set_index_Ok by done. simpl.
    destruct (decide (Z.of_nat k ≠ 0)) as [Hk0|Hk0].
    + assert (index (<[k:=path]> paths) (Z.of_nat k) = Ok path) as ->.
      { apply index_Ok. rewrite Nat2Z.id. split; [lia|].
        by apply list_lookup_insert_eq. }
      simpl. replace (Z.to_nat (Z.of_nat k + 1)) with (S k) by lia.
      rewrite Nat2Z.id, take_insert_ge, drop_insert_lt by lia.
      by rewrite delete_take_drop.
    + assert (k = 0%nat) as -> by lia.
      destruct paths; [simpl in Hlt; lia | done].
  - destruct (decide (0 + len paths = len paths)) as [_|]; [|lia].
    unfold len in *.
    destruct (decide (Z.of_nat (length paths) < C)) as [Hroom|Hfull].
    + destruct (decide (length paths < Z.to_nat C)%nat) as [_|]; [|lia].
      replace (0 + Z.of_nat (length paths)) with (Z.of_nat (length paths))
        by lia.
      rewrite set_index_Ok by (rewrite length_app; simpl; lia). simpl.
      rewrite insert_app_r_alt, Nat.sub_diag by lia. simpl.
      destruct (decide (Z.of_nat (length paths) ≠ 0)) as [Hne|He].
      * assert (index (paths ++ [path]) (Z.of_nat (length paths)) = Ok path)
          as ->.
        { apply index_Ok. rewrite Nat2Z.id. split; [lia|].
          by rewrite lookup_app_r, Nat.sub_diag by lia. }
        simpl. rewrite Nat2Z.id, take_app_length.
        rewrite drop_ge by (rewrite length_app; simpl; lia).
        by rewrite app_nil_r.
      * destruct paths; [done | simpl in He; lia].
    + destruct (decide (length paths < Z.to_nat C)%nat) as [|_]; [lia|].
      destruct paths as [|p0 paths'] eqn:Epaths using rev_ind.
      { simpl in Hfull. lia. }
      clear IHpaths'. rewrite length_app in *. simpl length in *.
      replace (Z.of_nat (length paths' + 1) - 1)
        with (Z.of_nat (length paths')) by lia.
      rewrite set_index_Ok by (rewrite length_app; simpl; lia). simpl.
      rewrite insert_app_r_alt, Nat.sub_diag by lia. simpl.
      replace (length paths' + 1 - 1)%nat with (length paths') by lia.
      rewrite take_app_length.
      destruct (decide (Z.of_nat (length paths') ≠ 0)) as [Hne|He].
      * assert (index (paths' ++ [path]) (Z.of_nat (length paths')) = Ok path)
          as ->.
        { apply index_Ok. rewrite Nat2Z.id. split; [lia|].
          by rewrite lookup_app_r, Nat.sub_diag by lia. }
        simpl. rewrite Nat2Z.id, take_app_length.
        rewrite drop_ge by (rewrite length_app; simpl; lia).
        by rewrite app_nil_r.
      * destruct paths'; [done | simpl in He; lia].
Qed.

Lemma NoDup_dedup_fp (h : list Path) : NoDup (Fingerprint <$> dedup_fp h).
Proof.
  induction h as [|p older IH]; simpl; [constructor|].
  apply NoDup_cons. split.
  - rewrite list_elem_of_fmap. intros (q & Hfp & Hq).
    apply list_elem_of_filter in Hq as [Hne _]. congruence.
  - eapply sublist_NoDup; [exact IH|].
    apply fmap_sublist, sublist_filter.
Qed.

Lemma filter_absent (f : string) (D : list Path) :
  Forall (λ x, ¬ Fingerprint x = f) D →
  filter (λ x, Fingerprint x ≠ f) D = D.
Proof.
  induction 1 as [|x D Hx _ IH]; [done|].
  rewrite filter_cons_True by done. by rewrite IH.
Qed.

Lemma filter_is_delete (f : string) (D : list Path) (k : nat) (q : Path) :
  NoDup (Fingerprint <$> D) → D !! k = Some q → Fingerprint q = f →
  filter (λ x, Fingerprint x ≠ f) D = delete k D.
Proof.
  revert k. induction D as [|x D IH]; intros k Hnd Hk Hq; [done|].
  simpl in Hnd. apply NoDup_cons in Hnd as [Hx Hnd].
  destruct k as [|k]; simpl in Hk.
  - inversion Hk; subst x. rewrite filter_cons_False by (intros H; by apply H).
    simpl. apply filter_absent, Forall_forall. intros y Hy Hfy.
    apply Hx, list_elem_of_fmap. exists y. split; [congruence | done].
  - assert (Fingerprint x ≠ f) as Hne.
    { intros Hxf. apply Hx, list_elem_of_fmap. exists q.
      split; [congruence | by eapply list_elem_of_lookup_2]. }
    rewrite filter_cons_True by done. simpl. f_equal. by eapply IH.
Qed.

Lemma delete_take {A} (D : list A) (k C : nat) :
  (k < C)%nat → delete k (take C D) = take (C - 1) (delete k D).
Proof.
  revert k C. induction D as [|x D IH]; intros k C Hk.
  - rewrite take_nil. destruct k; simpl; by rewrite take_nil.
  - destruct C as [|C]; [lia|]. destruct k as [|k]; simpl.
    + by rewrite Nat.sub_0_r.
    + rewrite IH by lia. rewrite Nat.sub_0_r.
      destruct C as [|C]; [lia|]. simpl. by rewrite Nat.sub_0_r.
Qed.

Lemma take_delete_ge {A} (D : list A) (k n : nat) :
  (n ≤ k)%nat → take n (delete k D) = take n D.
Proof.
  revert k n. induction D as [|x D IH]; intros k n Hk; [done|].
  destruct n as [|n]; [done|]. destruct k as [|k]; [lia|].
  simpl. f_equal. apply IH. lia.
Qed.

Lemma mru_insert_spec_history (C : nat) (p : Path) (h : list Path) :
  (1 ≤ C)%nat →
  mru_insert_spec C p (mru_spec C h) = mru_spec C (p :: h).
Proof.
  intros HC. unfold mru_spec. simpl dedup_fp.
  set (D := dedup_fp h). pose proof (NoDup_dedup_fp h) as Hnd. fold D in Hnd.
  destruct C as [|C']; [lia|]. rewrite firstn_cons. fold (take C' (filter (λ q, Fingerprint q ≠ Fingerprint p) D)).
  unfold mru_insert_spec.
  destruct (list_find (λ q, Fingerprint q = Fingerprint p) D)
    as [[k q]|] eqn:HfD.
  - apply list_find_Some in HfD as (Hk & Hq & Hfirst).
    rewrite (filter_is_delete _ D k q) by done.
    pose proof (lookup_lt_Some _ _ _ Hk) as Hlt.
    destruct (decide (k < S C')%nat) as [Hin|Hout].
    + assert (list_find (λ q, Fingerprint q = Fingerprint p) (take (S C') D)
              = Some (k, q)) as ->.
      { apply list_find_Some. split; [by rewrite lookup_take_lt|].
        split; [done|]. intros j y Hj Hjk.
        apply lookup_take_Some in Hj as [Hj _]. by eapply Hfirst. }
      f_equal. rewrite delete_take by done. f_equal. lia.
    + assert (list_find (λ q, Fingerprint q = Fingerprint p) (take (S C') D)
              = None) as ->.
      { apply list_find_None, Forall_forall. intros y Hy.
        apply list_elem_of_lookup in Hy as [j Hj].
        apply lookup_take_Some in Hj as [Hj HjC].
        eapply Hfirst; [exact Hj | lia]. }
      rewrite length_take_le by lia.
      destruct (decide (S C' < S C')%nat); [lia|]. f_equal.
      rewrite take_take, take_delete_ge by lia. f_equal. lia.
  - pose proof HfD as Hnone. apply list_find_None in Hnone.
    rewrite filter_absent by done.
    assert (list_find (λ q, Fingerprint q = Fingerprint p) (take (S C') D)
            = None) as ->.
    { apply list_find_None. by apply Forall_take. }
    destruct (decide (length (take (S C') D) < S C')%nat) as [Hroom|Hfull].
    + rewrite length_take in Hroom.
      rewrite !take_ge by lia. done.
    + rewrite length_take in Hfull. rewrite length_take_le by lia.
      rewrite take_take. f_equal. f_equal. lia.
Qed.

Lemma mru_spec_length (C : nat) (h : list Path) :
  (length (mru_spec C h) ≤ C)%nat.
Proof. unfold mru_spec. rewrite length_take. lia. Qed.

Lemma mru_spec_head (C : nat) (h : list Path) :
  (1 ≤ C)%nat → head (mru_spec C h) = head h.
Proof.
  intros HC. unfold mru_spec. destruct C; [lia|]. by destruct h.
Qed.

Lemma Record_all_app `{ReplyConfig} calls1 calls2 s :
  Record_all (calls1 ++ calls2) s
  = s' ← Record_all calls1 s; Record_all calls2 s'.
Proof.
  revert s. induction calls1 as [|c calls1 IH]; intros s; simpl; [done|].
  destruct (DefaultReplySelector.Record_ _ _ _ s); simpl; [apply IH|done].
Qed.

Lemma recorded_snoc remote calls (call : Z * UDPAddr * option Path) :
  recorded remote (calls ++ [call])
  = match (if decide (call.1.2 = remote) then call.2 else None) with
    | Some p => p :: recorded remote calls
    | None => recorded remote calls
    end.
Proof.
  unfold recorded. rewrite omap_app, reverse_app. simpl.
  by destruct (if decide _ then _ else _).
Qed.

Lemma Record_all_refines_spec `{ReplyConfig}
    (calls : list (Z * UDPAddr * option Path)) :
  1 ≤ defaultSelectorMaxReplyPaths →
  ∃ s, Record_all calls DefaultReplySelector.NewDefaultReplySelector = Ok s ∧
       ∀ remote, cached remote s
                 = mru_spec (Z.to_nat defaultSelectorMaxReplyPaths)
                     (recorded remote calls).
Proof.
  intros HC. induction calls as [|[[now r] path] calls IH] using rev_ind.
  - eexists. split; [reflexivity|]. intros remote.
    unfold cached, mru_spec. simpl. rewrite lookup_empty. by rewrite take_nil.
  - destruct IH as (s & Hrun & Hinv).
    rewrite Record_all_app, Hrun. simpl.
    destruct path as [path|]; simpl.
    + specialize (Hinv r) as Hr. unfold cached in Hr.
      assert (re_paths (default {| re_paths := []; re_seen := 0 |}
                          (DefaultReplySelector.remotes s !! r))
              = mru_spec (Z.to_nat defaultSelectorMaxReplyPaths)
                  (recorded r calls)) as Hold.
      { by destruct (DefaultReplySelector.remotes s !! r). }
      rewrite insert_refines_spec by done. rewrite Hold. simpl.
      eexists. split; [reflexivity|]. intros remote.
      rewrite recorded_snoc. simpl. unfold cached. simpl.
      destruct (decide (r = remote)) as [->|Hne].
      * rewrite lookup_insert_eq. simpl.
        apply mru_insert_spec_history. lia.
      * rewrite lookup_insert_ne by done. apply Hinv.
    + exists s. split; [done|]. intros remote.
      rewrite recorded_snoc. simpl.
      destruct (decide (r = remote)); apply Hinv.
Qed.

Lemma dedup_fp_fingerprints (f : string) (h : list Path) :
  f ∈ Fingerprint <$> dedup_fp h ↔ f ∈ Fingerprint <$> h.
Proof.
  induction h as [|p h IH]; simpl; [done|].
  rewrite !elem_of_cons, <- IH, !list_elem_of_fmap. split.
  - intros [?|(q & ? & Hq)]; [by left|].
    apply list_elem_of_filter in Hq as [_ Hq]. right. eauto.
  - intros [?|(q & ? & Hq)]; [by left|].
    destruct (decide (f = Fingerprint p)) as [|Hne]; [by left|].
    right. exists q. split; [done|].
    apply list_elem_of_filter. split; [congruence | done].
Qed.

Lemma filter_all {A} (P : A → Prop) `{!∀ x, Decision (P x)} (l : list A) :
  (∀ x, P x) → filter P l = l.
Proof.
  intros HP. induction l as [|x l IH]; [done|].
  rewrite filter_cons_True by done. by rewrite IH.
Qed.

Lemma dedup_fp_app (h1 h2 : list Path) :
  dedup_fp (h1 ++ h2)
  = dedup_fp h1
    ++ filter (λ q, Fingerprint q ∉ Fingerprint <$> h1) (dedup_fp h2).
Proof.
  induction h1 as [|p h1 IH]; simpl.
  - rewrite filter_all; [done|]. intros x. apply not_elem_of_nil.
  - f_equal. rewrite IH, filter_app. f_equal.
    rewrite list_filter_filter. apply list_filter_iff. intros q.
    rewrite not_elem_of_cons. done.
Qed.

Lemma mru_spec_retains (C : nat) (h : list Path) (j : nat) (p : Path) :
  (length (dedup_fp (take j h)) ≤ C)%nat →
  p ∈ take j h →
  Fingerprint p ∈ Fingerprint <$> mru_spec C h.
Proof.
  intros Hdistinct Hp. unfold mru_spec.
  rewrite <- (take_drop j h) at 1. rewrite dedup_fp_app.
  rewrite take_app_ge by done. rewrite fmap_app, elem_of_app. left.
  apply dedup_fp_fingerprints, list_elem_of_fmap. eauto.
Qed.

Lemma Path_is_head_of_cached (remote : UDPAddr) (s : DefaultReplySelector.t) :
  DefaultReplySelector.Path remote s = head (cached remote s).
Proof.
  unfold DefaultReplySelector.Path, cached.
  destruct (DefaultReplySelector.remotes s !! remote) as [r|]; [|done].
  destruct (decide _) as [E|]; [|done].
  by destruct (re_paths r).
Qed.

(** C3.  With capacity [C = defaultSelectorMaxReplyPaths ≥ 1]: one [insert]
    promotes a fingerprint already present to the front, and otherwise
    puts the path in front, dropping the last entry when the list is full;
    after any sequence of [Record] calls on a fresh selector the list held
    for a remote is the first [C] entries of its recorded paths, newest
    first and one per fingerprint, so it holds at most [C] paths and every
    fingerprint among the newest records that span at most [C] distinct
    fingerprints; and [Path] answers the newest non-nil path recorded for
    the remote, nil when there is none. *)
Theorem reply_cache_is_MRU `{ReplyConfig} (path : Path) (paths : list Path)
    (calls : list (Z * UDPAddr * option Path)) (remote : UDPAddr) :
  1 ≤ defaultSelectorMaxReplyPaths →
  let C := Z.to_nat defaultSelectorMaxReplyPaths in
  pathsMRU.insert path defaultSelectorMaxReplyPaths paths
  = Ok (mru_insert_spec C path paths) ∧
  ∃ s,
    Record_all calls DefaultReplySelector.NewDefaultReplySelector = Ok s ∧
    cached remote s = mru_spec C (recorded remote calls) ∧
    len (cached remote s) ≤ defaultSelectorMaxReplyPaths ∧
    (∀ (j : nat) p,
       (length (dedup_fp (take j (recorded remote calls))) ≤ C)%nat →
       p ∈ take j (recorded remote calls) →
       Fingerprint p ∈ Fingerprint <$> cached remote s) ∧
    DefaultReplySelector.Path remote s = head (recorded remote calls).
Proof.
  intros HC C. split; [by apply insert_refines_spec|].
  destruct (Record_all_refines_spec calls HC) as (s & Hrun & Hinv).
  exists s. split; [done|]. specialize (Hinv remote). fold C in Hinv.
  split; [done|]. split; [|split].
  - rewrite Hinv. pose proof (mru_spec_length C (recorded remote calls)).
    unfold len. lia.
  - intros j p Hj Hp. rewrite Hinv. by eapply mru_spec_retains.
  - rewrite Path_is_head_of_cached, Hinv. apply mru_spec_head. lia.
Qed.

Lemma reply_cache_is_MRU_witness :
  ∃ s,
    @Record_all Sample.cache2
      [(10, Sample.there, Some Sample.P1); (20, Sample.there, Some Sample.P2);
       (30, Sample.there, Some Sample.P3)]
      DefaultReplySelector.NewDefaultReplySelector = Ok s ∧
    cached Sample.there s = [Sample.P3; Sample.P2] ∧
    DefaultReplySelector.Path Sample.there s = Some Sample.P3.
Proof.
  assert (1 ≤ @defaultSelectorMaxReplyPaths Sample.cache2) as HC
    by (simpl; lia).
  destruct (@reply_cache_is_MRU Sample.cache2 Sample.P1 []
              [(10, Sample.there, Some Sample.P1);
               (20, Sample.there, Some Sample.P2);
               (30, Sample.there, Some Sample.P3)] Sample.there HC)
    as (_ & s & Hrun & Hcached & _ & _ & Hpath).
  exists s. split; [exact Hrun|]. split.
  - rewrite Hcached. reflexivity.
  - rewrite Hpath. reflexivity.
Defined.

(** ** The probing loop *)

Lemma mark_pending (pending : gset string) (ps : list Path) :
  foldl (λ pending p, {[ Fingerprint p ]} ∪ pending) pending ps
  = pending ∪ list_to_set (Fingerprint <$> ps).
Proof.
  revert pending. induction ps as [|p ps IH]; intros pending; simpl.
  - by rewrite (right_id_L ∅ (∪)).
  - by rewrite IH, (comm_L (∪) {[ Fingerprint p ]} pending), <- (assoc_L (∪)).
Qed.

Lemma sendPings_all_ok `{Pinger} (s : PingingSelector.t) (ps : list Path)
    (seq : Z) (sent : list Probe) :
  (∀ p, p ∈ ps → pinger_Send_ok (PingingSelector.remote s) p seq = true) →
  PingingSelector.sendPings s ps seq sent
  = Ok (reverse (probe_of s seq <$> ps) ++ sent).
Proof.
  revert sent. induction ps as [|p ps IH]; intros sent Hok; simpl; [done|].
  rewrite Hok by (by left). rewrite IH by (intros; apply Hok; by right).
  rewrite reverse_cons, <- app_assoc. done.
Qed.

Lemma on_tick_ticked `{Pinger} (w : PingingSelector.Loop) :
  let s := PingingSelector.sel w in
  let k := Z.min (PingingSelector.numActive s) (len (PingingSelector.paths s)) in
  0 ≤ PingingSelector.numActive s →
  (∀ p, p ∈ take (Z.to_nat k) (PingingSelector.paths s) →
        pinger_Send_ok (PingingSelector.remote s) p
          (uint16 (PingingSelector.sequenceNo w + 1)) = true) →
  ∃ w1, PingingSelector.on_tick w = Ok w1 ∧ ticked k w w1.
Proof.
  intros s k Hn Hsend. unfold PingingSelector.on_tick, ticked. fold s.
  assert ((if decide (PingingSelector.numActive s > len (PingingSelector.paths s))
           then len (PingingSelector.paths s)
           else PingingSelector.numActive s) = k) as ->.
  { unfold k. destruct (decide _); lia. }
  destruct (decide (k = 0)) as [|Hk]; [by eexists|].
  unfold slice_to.
  destruct (decide (0 ≤ k ≤ len (PingingSelector.paths s))) as [_|Hr].
  2:{ unfold k, len in *. lia. }
  simpl. rewrite sendPings_all_ok by done. simpl.
  eexists. split; [reflexivity|]. simpl.
  rewrite mark_pending. done.
Qed.

Lemma samples_for_RecordLatency R pf pf' d st :
  samples_for R pf (RecordLatency R pf' d st)
  = (if decide (pf' = pf) then [d] else []) ++ samples_for R pf st.
Proof.
  unfold samples_for, RecordLatency. simpl.
  destruct (decide (R = R ∧ pf' = pf)) as [[_ ->]|Hn].
  - by rewrite decide_True.
  - rewrite decide_False; [done|]. intros ->. by apply Hn.
Qed.

Lemma handlePingReply_cases `{Pinger} (s : PingingSelector.t) (r : Reply)
    (pending : gset string) (seq : Z) (st : list StatsCall) :
  let R := PingingSelector.remote s in
  (∃ pf, answers R seq r pf = true ∧ pf ∈ pending ∧
         PingingSelector.handlePingReply s r pending seq st
         = (RecordLatency R pf (RTT r) st, pending ∖ {[ pf ]})) ∨
  ((∀ pf, pf ∈ pending → answers R seq r pf = false) ∧
   ∃ st', PingingSelector.handlePingReply s r pending seq st = (st', pending) ∧
          ∀ pf, samples_for R pf st' = samples_for R pf st).
Proof.
  intros R. unfold PingingSelector.handlePingReply, answers.
  destruct (Error r) as [e|].
  { right. split; [done|].
    destruct (reversePathFingerprint (reply_Path r)) as [pf0|];
      [destruct e|]; eexists; (split; [reflexivity|done]). }
  destruct (Source_Host r) as [ip| |];
    try (right; split; [done|]; eexists; split; [reflexivity|done]).
  fold R.
  destruct (decide _) as [Hmis|Hmatch].
  { right. split; [|eexists; split; [reflexivity|done]].
    intros pf _. destruct Hmis as [Hm|Hm].
    - by rewrite (bool_decide_eq_false_2 _ Hm).
    - rewrite (bool_decide_eq_false_2 _ Hm). by rewrite andb_false_r. }
  assert ({| sa_IA := Source_IA r; sa_IP := ip |} = R)
    as Hsrc by (apply dec_stable; intros ?; apply Hmatch; by left).
  assert (SeqNumber r = seq)
    as Hseq by (apply dec_stable; intros ?; apply Hmatch; by right).
  rewrite (bool_decide_eq_true_2 _ Hsrc), (bool_decide_eq_true_2 _ Hseq).
  simpl.
  destruct (reversePathFingerprint (reply_Path r)) as [pf0|].
  2:{ right. split; [|eexists; split; [reflexivity|done]].
      intros pf _. by apply bool_decide_eq_false_2. }
  destruct (decide (pf0 ∈ pending)) as [Hin|Hnin].
  - left. exists pf0. split; [by apply bool_decide_eq_true_2|done].
  - right. split; [|eexists; split; [reflexivity|done]].
    intros pf Hpf. apply bool_decide_eq_false_2. intros [= ->]. done.
Qed.

Lemma answers_functional `{Pinger} R seq r pf pf' :
  answers R seq r pf = true → answers R seq r pf' = true → pf = pf'.
Proof.
  unfold answers. destruct (Error r); [done|].
  destruct (Source_Host r); try done.
  rewrite !andb_true_iff, !bool_decide_eq_true.
  intros (_ & E1) (_ & E2). congruence.
Qed.

Lemma pending_empty_iff (X : gset string) : size X = 0%nat ↔ X = ∅.
Proof. rewrite size_empty_iff. apply leibniz_equiv_iff. Qed.

Lemma handlePingReply_inv `{Pinger} (s : PingingSelector.t) (r : Reply)
    (pending : gset string) (seq : Z) (st : list StatsCall) :
  let R := PingingSelector.remote s in
  let res := PingingSelector.handlePingReply s r pending seq st in
  (∀ pf, pf ∈ res.2 ↔ pf ∈ pending ∧ answers R seq r pf = false) ∧
  (∀ pf, samples_for R pf res.1
         = (if decide (pf ∈ pending)
            then (if answers R seq r pf then [RTT r] else []) else [])
           ++ samples_for R pf st).
Proof.
  intros R res. subst res.
  destruct (handlePingReply_cases s r pending seq st)
    as [(pf0 & Hans & Hin & ->)|(Hnone & st' & -> & Hsame)]; cbn [fst snd].
  - split; intros pf.
    + rewrite elem_of_difference, not_elem_of_singleton.
      split; intros [Hp Hq]; (split; [done|]).
      * destruct (answers R seq r pf) eqn:E; [|done].
        exfalso. apply Hq. by eapply answers_functional.
      * intros ->. unfold R in Hq. congruence.
    + rewrite samples_for_RecordLatency.
      destruct (decide (pf0 = pf)) as [<-|Hne].
      * rewrite decide_True by done. unfold R. by rewrite Hans.
      * destruct (decide (pf ∈ _)); [|done].
        destruct (answers R seq r pf) eqn:E; [|done].
        exfalso. apply Hne. by eapply answers_functional.
  - split; intros pf.
    + split; [|by intros [? _]]. intros Hp. split; [done|]. by apply Hnone.
    + rewrite Hsame. destruct (decide (pf ∈ _)) as [Hp|]; [|done].
      unfold R. by rewrite Hnone.
Qed.

Lemma on_reply_inv `{StatsQueries} `{Pinger} (r : Reply)
    (w : PingingSelector.Loop) :
  round_inv [PingingSelector.ReplyEv r] w (PingingSelector.on_reply r w) ∧
  (PingingSelector.replyPending w ≠ ∅ →
   PingingSelector.replyPending (PingingSelector.on_reply r w) = ∅ →
   PingingSelector.reselections (PingingSelector.on_reply r w)
   = S (PingingSelector.reselections w)).
Proof.
  unfold round_inv, PingingSelector.on_reply. simpl outcome.
  pose proof (handlePingReply_inv (PingingSelector.sel w) r
                (PingingSelector.replyPending w) (PingingSelector.sequenceNo w)
                (PingingSelector.stats w)) as [Hmem Hsam].
  destruct (PingingSelector.handlePingReply _ r _ _ _) as [st' pending'].
  simpl in Hmem, Hsam.
  assert (∀ pf,
    pf ∈ pending' ↔
    pf ∈ PingingSelector.replyPending w ∧
    (if answers (PingingSelector.remote (PingingSelector.sel w))
          (PingingSelector.sequenceNo w) r pf
     then Some (RTT r) else None) = None) as Hmem'.
  { intros pf. rewrite Hmem.
    destruct (answers _ _ r pf); split; intros [? ?]; by try split. }
  assert (∀ pf,
    samples_for (PingingSelector.remote (PingingSelector.sel w)) pf st'
    = (if decide (pf ∈ PingingSelector.replyPending w)
       then option_list
              (if answers (PingingSelector.remote (PingingSelector.sel w))
                    (PingingSelector.sequenceNo w) r pf
               then Some (RTT r) else None)
       else [])
      ++ samples_for (PingingSelector.remote (PingingSelector.sel w)) pf
           (PingingSelector.stats w)) as Hsam'.
  { intros pf. rewrite Hsam. by destruct (answers _ _ r pf). }
  destruct (decide (size pending' = 0%nat)) as [He|Hne]; simpl.
  - apply pending_empty_iff in He.
    split; [split; [done|]; split; [exact Hmem'|]; split; [exact Hsam'|]|];
      done.
  - split; [split; [done|]; split; [exact Hmem'|]; split; [exact Hsam'|]|];
      [done|].
    intros _ He. exfalso. by apply Hne, pending_empty_iff.
Qed.

Lemma expire_all (s : PingingSelector.t) (st : list StatsCall)
    (pending : gset string) (l : list string) :
  foldl (PingingSelector.expire s) (st, pending) l
  = (foldl (λ st pf, RecordLatency (PingingSelector.remote s) pf
                       (PingingSelector.Timeout s) st) st l,
     pending ∖ list_to_set l).
Proof.
  revert st pending. induction l as [|pf l IH]; intros st pending; simpl.
  - by rewrite difference_empty_L.
  - unfold PingingSelector.expire at 2. simpl. rewrite IH. f_equal.
    apply set_eq. intros x.
    rewrite !elem_of_difference, elem_of_union, elem_of_singleton.
    tauto.
Qed.

Lemma samples_for_expired R T pf (l : list string) (st : list StatsCall) :
  NoDup l →
  samples_for R pf (foldl (λ st pf, RecordLatency R pf T st) st l)
  = (if decide (pf ∈ l) then [T] else []) ++ samples_for R pf st.
Proof.
  intros Hnd. revert st.
  induction Hnd as [|x l Hx Hnd IH]; intros st; cbn [foldl].
  - destruct (decide (pf ∈ [])) as [Hin|]; [by apply elem_of_nil in Hin|done].
  - rewrite IH, samples_for_RecordLatency.
    destruct (decide (x = pf)) as [->|Hne].
    + rewrite (decide_False (P := pf ∈ l)) by done.
      rewrite decide_True by (by left). done.
    + destruct (decide (pf ∈ l)) as [Hin|Hnin].
      * rewrite decide_True by (by right). done.
      * rewrite decide_False; [done|].
        rewrite not_elem_of_cons. split; [congruence | done].
Qed.

Lemma on_timeout_inv `{StatsQueries} `{Pinger} (w : PingingSelector.Loop) :
  round_inv [PingingSelector.TimeoutEv] w (PingingSelector.on_timeout w) ∧
  PingingSelector.replyPending (PingingSelector.on_timeout w) = ∅ ∧
  (PingingSelector.replyPending w ≠ ∅ →
   PingingSelector.reselections (PingingSelector.on_timeout w)
   = S (PingingSelector.reselections w)).
Proof.
  unfold round_inv, PingingSelector.on_timeout. simpl outcome.
  destruct (decide (size (PingingSelector.replyPending w) = 0%nat))
    as [He|Hne]; simpl.
  - apply pending_empty_iff in He. rewrite He.
    split; [|done].
    split; [done|]. split; [|split; [|done]].
    + intros pf. split; [intros Hp | intros [Hp _]];
        by apply not_elem_of_empty in Hp.
    + intros pf. rewrite decide_False; [done | apply not_elem_of_empty].
  - rewrite expire_all. simpl.
    assert (PingingSelector.replyPending w
            ∖ list_to_set (elements (PingingSelector.replyPending w))
            = (∅ : gset string)) as ->.
    { apply set_eq. intros x.
      rewrite elem_of_difference, elem_of_list_to_set, elem_of_elements.
      split; [tauto | intros Hx; by apply not_elem_of_empty in Hx]. }
    split; [|done].
    split; [done|]. split; [|split; [|done]].
    + intros pf. split; [intros Hp; by apply not_elem_of_empty in Hp|].
      by intros [_ ?].
    + intros pf. rewrite samples_for_expired by apply NoDup_elements.
      destruct (decide (pf ∈ PingingSelector.replyPending w)) as [Hin|Hnin].
      * rewrite decide_True by (by apply elem_of_elements). done.
      * rewrite decide_False by (by rewrite elem_of_elements). done.
Qed.

Lemma outcome_cons `{Pinger} R T q (e : PingingSelector.Event) rest pf :
  outcome R T q (e :: rest) pf
  = match outcome R T q [e] pf with
    | Some d => Some d
    | None => outcome R T q rest pf
    end.
Proof.
  destruct e as [| |r|]; simpl; try done.
  by destruct (answers R q r pf).
Qed.

Lemma round_inv_nil `{Pinger} (w : PingingSelector.Loop) : round_inv [] w w.
Proof.
  unfold round_inv. simpl. split; [done|]. split; [|split; [|done]].
  - intros pf. split; [by intros ? | by intros [? _]].
  - intros pf. by destruct (decide _).
Qed.

Lemma round_inv_cons `{Pinger} (e : PingingSelector.Event)
    (rest : list PingingSelector.Event) (w w' w2 : PingingSelector.Loop) :
  round_inv [e] w w' → round_inv rest w' w2 → round_inv (e :: rest) w w2.
Proof.
  unfold round_inv.
  intros ((HR & HT & Hq) & Hmem1 & Hsam1 & Hres1)
         ((HR2 & HT2 & Hq2) & Hmem2 & Hsam2 & Hres2).
  rewrite HR, HT, Hq in *.
  split; [by rewrite HR2, HT2, Hq2|].
  split; [|split].
  - intros pf. rewrite (outcome_cons _ _ _ e rest pf), Hmem2, Hmem1.
    destruct (outcome _ _ _ [e] pf) as [d|].
    + split; [intros [[_ [=]] _] | intros [_ [=]]].
    + split; [intros [[? _] ?] | intros [? ?]]; done.
  - intros pf. rewrite (outcome_cons _ _ _ e rest pf), Hsam2, Hsam1.
    destruct (decide (pf ∈ PingingSelector.replyPending w)) as [Hin|Hnin].
    + destruct (outcome _ _ _ [e] pf) as [d|] eqn:E; simpl.
      * rewrite decide_False; [done|]. rewrite Hmem1, E.
        by intros [_ ?].
      * rewrite decide_True; [done|].
        rewrite Hmem1. by split.
    + rewrite decide_False; [done|]. rewrite Hmem1. by intros [? _].
  - intros Hne. rewrite Hres2 by done. apply Hres1.
    intros He. apply Hne. apply set_eq. intros pf.
    rewrite Hmem2, He. split; [by intros [? _] | intros Hp].
    by apply not_elem_of_empty in Hp.
Qed.

Lemma run_round `{StatsQueries} `{Pinger} (evs : list PingingSelector.Event)
    (w : PingingSelector.Loop) :
  Forall round_event evs →
  ∃ w2, PingingSelector.run evs w = Ok w2 ∧ round_inv evs w w2.
Proof.
  intros Hev. revert w. induction Hev as [|e rest He _ IH]; intros w.
  - exists w. split; [done | apply round_inv_nil].
  - destruct e as [| |r|]; try done; simpl.
    + destruct (IH (PingingSelector.on_reply r w)) as (w2 & Hrun & Hinv).
      exists w2. split; [done|].
      eapply round_inv_cons; [apply on_reply_inv | done].
    + destruct (IH (PingingSelector.on_timeout w)) as (w2 & Hrun & Hinv).
      exists w2. split; [done|].
      eapply round_inv_cons; [apply on_timeout_inv | done].
Qed.

Lemma run_app_round `{StatsQueries} `{Pinger}
    (evs evs' : list PingingSelector.Event) (w w2 : PingingSelector.Loop) :
  Forall round_event evs →
  PingingSelector.run evs w = Ok w2 →
  PingingSelector.run (evs ++ evs') w = PingingSelector.run evs' w2.
Proof.
  intros Hev. revert w. induction Hev as [|e rest He _ IH]; intros w Hrun.
  - simpl in *. by inversion Hrun.
  - destruct e as [| |r|]; try done; simpl in *; by apply IH.
Qed.

Lemma outcome_Some `{Pinger} R T q (evs : list PingingSelector.Event) pf d :
  outcome R T q evs pf = Some d →
  d = T ∨ ∃ r, PingingSelector.ReplyEv r ∈ evs ∧
               answers R q r pf = true ∧ d = RTT r.
Proof.
  induction evs as [|e evs IH]; simpl; [done|].
  destruct e as [| |r|].
  - intros Hd. destruct (IH Hd) as [?|(r & ? & ?)]; [by left|].
    right. exists r. split; [by right | done].
  - intros Hd. destruct (IH Hd) as [?|(r & ? & ?)]; [by left|].
    right. exists r. split; [by right | done].
  - destruct (answers R q r pf) eqn:E.
    + intros [= <-]. right. exists r. split; [by left | done].
    + intros Hd. destruct (IH Hd) as [?|(r' & ? & ?)]; [by left|].
      right. exists r'. split; [by right | done].
  - intros [= <-]. by left.
Qed.

(** A tick that probes sends [k] probes, each with the new sequence
    number. *)
Lemma ticked_probe_count `{Pinger} (k : Z) (w w1 : PingingSelector.Loop) :
  0 < k ≤ len (PingingSelector.paths (PingingSelector.sel w)) →
  ticked k w w1 →
  ∃ sent, PingingSelector.probes w1 = sent ++ PingingSelector.probes w ∧
          len sent = k ∧
          Forall (λ pr, probe_seq pr = PingingSelector.sequenceNo w1) sent.
Proof.
  intros Hk. unfold ticked. destruct (decide (k = 0)); [lia|].
  intros (_ & Hseq & _ & _ & _ & _ & Hprobes).
  eexists. split; [exact Hprobes|]. split.
  - unfold len in *. rewrite length_reverse, length_fmap, length_take. lia.
  - rewrite Hseq. apply Forall_reverse, Forall_fmap, Forall_forall.
    by intros p _.
Qed.

Lemma ticked_keeps `{Pinger} k (w w1 : PingingSelector.Loop) :
  ticked k w w1 →
  PingingSelector.sel w1 = PingingSelector.sel w ∧
  PingingSelector.stats w1 = PingingSelector.stats w ∧
  PingingSelector.reselections w1 = PingingSelector.reselections w.
Proof.
  unfold ticked. destruct (decide (k = 0)); [by intros ->|].
  intros (? & _ & _ & _ & ? & ? & _). done.
Qed.


(** X24.  Between rounds, when no fingerprint is awaited, every reply the loop
    receives makes it call [reselectPath] again. *)
Lemma reply_while_idle_reselects `{StatsQueries} `{Pinger} (r : Reply)
    (w : PingingSelector.Loop) :
  PingingSelector.replyPending w = ∅ →
  PingingSelector.reselections (PingingSelector.on_reply r w)
  = S (PingingSelector.reselections w).
Proof.
  intros Hidle. unfold PingingSelector.on_reply.
  pose proof (handlePingReply_inv (PingingSelector.sel w) r
                (PingingSelector.replyPending w) (PingingSelector.sequenceNo w)
                (PingingSelector.stats w)) as [Hmem _].
  destruct (PingingSelector.handlePingReply _ r _ _ _) as [st' pending'].
  simpl in Hmem.
  assert (pending' = ∅) as ->.
  { apply set_eq. intros pf. rewrite Hmem, Hidle.
    split; [by intros [? _] | intros Hp; by apply not_elem_of_empty in Hp]. }
  by rewrite decide_True.
Qed.



(** ** Further properties of the pinning selectors *)

Lemma PathDown_unrelated_noop_witness :
  @DefaultSelector.PathDown Sample.registry [] "f2" (Sample.if_ 3 31)
    {| DefaultSelector.paths := [Sample.P1; Sample.P2];
       DefaultSelector.current := 0 |}
  = Ok {| DefaultSelector.paths := [Sample.P1; Sample.P2];
          DefaultSelector.current := 0 |}.
Proof.
  refine (proj1 (@PathDown_unrelated_noop Sample.registry [] "f2"
                   (Sample.if_ 3 31) [Sample.P1; Sample.P2] 0 0 Sample.P1
                   eq_refl _ _)).
  - discriminate.
  - intros Hin. simpl in Hin.
    repeat (apply elem_of_cons in Hin as [Hin|Hin]; [discriminate|]).
    by apply elem_of_nil in Hin.
Defined.

(** X2.  When the notification names the selected path's fingerprint or one
    of its interfaces, [PathDown] of both selectors moves the index to the
    answer of [FirstMoreAlive] if that is not negative and keeps it
    otherwise; the list of paths is never changed. *)
Theorem PathDown_failover `{StatsQueries} (st : list StatsCall) (pf : string)
    (pi : PathInterface) (ps : list Path) (cur pol : Z) (p : Path) :
  index ps cur = Ok p →
  pf = Fingerprint p ∨ pi ∈ Interfaces (path_Metadata p) →
  let better := FirstMoreAlive st p ps in
  let cur' := if decide (better >= 0) then better else cur in
  DefaultSelector.PathDown st pf pi
    {| DefaultSelector.paths := ps; DefaultSelector.current := cur |}
  = Ok {| DefaultSelector.paths := ps; DefaultSelector.current := cur' |} ∧
  FabridSelector.PathDown st pf pi
    {| FabridSelector.paths := ps; FabridSelector.current := cur;
       FabridSelector.policy := pol |}
  = Ok {| FabridSelector.paths := ps; FabridSelector.current := cur';
          FabridSelector.policy := pol |}.
Proof.
  intros Hcur Haff better cur'.
  unfold DefaultSelector.PathDown, FabridSelector.PathDown,
    isInterfaceOnPath. simpl. rewrite Hcur. simpl.
  assert (bool_decide (pi ∈ Interfaces (path_Metadata p))
          || bool_decide (pf = Fingerprint p) = true) as ->.
  { apply orb_true_iff. destruct Haff as [Hf|Hi].
    - right. by apply bool_decide_eq_true_2.
    - left. by apply bool_decide_eq_true_2. }
  subst cur' better. by destruct (decide _).
Qed.

Lemma PathDown_failover_witness :
  @DefaultSelector.PathDown Sample.registry_alive [] "f1" (Sample.if_ 9 9)
    {| DefaultSelector.paths := [Sample.P1; Sample.P2];
       DefaultSelector.current := 0 |}
  = Ok {| DefaultSelector.paths := [Sample.P1; Sample.P2];
          DefaultSelector.current := 1 |}.
Proof.
  exact (proj1 (@PathDown_failover Sample.registry_alive [] "f1"
                  (Sample.if_ 9 9) [Sample.P1; Sample.P2] 0 0 Sample.P1
                  eq_refl (or_introl eq_refl))).
Defined.

Lemma DefaultSelector_call_valid `{StatsQueries}
    (call : list StatsCall * SelectorCall) (s s' : DefaultSelector.t) :
  (∀ st p ps, FirstMoreAlive st p ps < len ps) →
  sel_call call s = Ok s' →
  selection_valid (DefaultSelector.paths s') (DefaultSelector.current s').
Proof.
  intros Hreg. destruct call as [st [local remote ps|ps|pf pi]];
    unfold sel_call; simpl.
  - intros [= <-]. simpl. destruct ps; [by left|].
    right. unfold len. simpl. lia.
  - unfold DefaultSelector.Refresh.
    destruct (decide (len (DefaultSelector.paths s) > 0)) as [_|_].
    + destruct (index _ _) as [p|] eqn:E; simpl; [|done].
      intros [= <-]. simpl.
      destruct (decide (Fingerprint p ∈ Fingerprint <$> ps)) as [Hin|Hnin].
      * destruct (Refresh_loop_found _ ps 0 0 Hin)
          as (k & q & -> & Hk & _ & _).
        apply lookup_lt_Some in Hk. right. unfold len. lia.
      * rewrite Refresh_loop_absent by done.
        destruct ps; [by left|]. right. unfold len. simpl. lia.
    + simpl. intros [= <-]. simpl.
      destruct ps; [by left|]. right. unfold len. simpl. lia.
  - unfold DefaultSelector.PathDown.
    destruct (index _ _) as [p|] eqn:E; simpl; [|done].
    pose proof (index_Ok_len _ _ _ E) as Hlen.
    destruct (_ || _).
    + destruct (decide _) as [Hge|_]; intros [= <-]; simpl.
      * right. split; [lia | apply Hreg].
      * by right.
    + intros [= <-]. by right.
Qed.

(** X3.  Given a registry whose [FirstMoreAlive] answers below the length
    of the list, whatever sequence of [Initialize], [Refresh] and
    [PathDown] calls a [DefaultSelector] has completed, its index points
    into its list or the list is empty, and [Path] then answers without
    fault: nil exactly when the list is empty. *)
Theorem DefaultSelector_selection_stays_valid `{StatsQueries}
    (calls : list (list StatsCall * SelectorCall))
    (s s' : DefaultSelector.t) :
  (∀ st p ps, FirstMoreAlive st p ps < len ps) →
  selection_valid (DefaultSelector.paths s) (DefaultSelector.current s) →
  sel_calls calls s = Ok s' →
  selection_valid (DefaultSelector.paths s') (DefaultSelector.current s') ∧
  ∃ r, DefaultSelector.Path s' = Ok r ∧
       (r = None ↔ DefaultSelector.paths s' = []).
Proof.
  intros Hreg Hs Hrun.
  assert (selection_valid (DefaultSelector.paths s')
            (DefaultSelector.current s')) as Hv.
  { revert s Hs Hrun. induction calls as [|call calls IH]; intros s Hs Hrun.
    - simpl in Hrun. by inversion Hrun; subst.
    - simpl in Hrun. destruct (sel_call call s) as [s1|] eqn:E; [|done].
      simpl in Hrun. eapply IH; [|exact Hrun].
      by eapply DefaultSelector_call_valid. }
  split; [done|]. unfold DefaultSelector.Path.
  destruct Hv as [Hnil|Hrange].
  - rewrite Hnil. simpl. by exists None.
  - destruct (decide (len (DefaultSelector.paths s') = 0)) as [E|_]; [lia|].
    destruct (lookup_lt_is_Some_2 (DefaultSelector.paths s')
                (Z.to_nat (DefaultSelector.current s'))) as [p Hp].
    { unfold len in Hrange. lia. }
    assert (index (DefaultSelector.paths s') (DefaultSelector.current s')
            = Ok p) as -> by (apply index_Ok; split; [lia | done]).
    simpl. exists (Some p). split; [done|].
    split; [done|]. intros Hnil. rewrite Hnil in Hp. by rewrite lookup_nil in Hp.
Qed.

Lemma DefaultSelector_selection_stays_valid_witness :
  ∃ r, DefaultSelector.Path
         {| DefaultSelector.paths := [Sample.P2; Sample.P1];
            DefaultSelector.current := 1 |} = Ok r ∧
       (r = None ↔ [Sample.P2; Sample.P1] = []).
Proof.
  refine (proj2 (@DefaultSelector_selection_stays_valid Sample.registry
                   [([], CallInitialize Sample.here Sample.there
                           [Sample.P1; Sample.P2]);
                    ([], CallPathDown "f9" (Sample.if_ 9 9));
                    ([], CallRefresh [Sample.P2; Sample.P1])]
                   DefaultSelector.NewDefaultSelector
                   {| DefaultSelector.paths := [Sample.P2; Sample.P1];
                      DefaultSelector.current := 1 |} _ _ eq_refl)).
  - intros st p ps. simpl. unfold len. lia.
  - by left.
Defined.

(** X4.  When the fingerprints of a list are pairwise distinct, [Refresh]
    with the list the selector already holds changes nothing. *)
Theorem Refresh_same_list_noop (ps : list Path) (cur pol : Z) (p : Path) :
  NoDup (Fingerprint <$> ps) →
  index ps cur = Ok p →
  DefaultSelector.Refresh ps
    {| DefaultSelector.paths := ps; DefaultSelector.current := cur |}
  = Ok {| DefaultSelector.paths := ps; DefaultSelector.current := cur |} ∧
  FabridSelector.Refresh ps
    {| FabridSelector.paths := ps; FabridSelector.current := cur;
       FabridSelector.policy := pol |}
  = Ok {| FabridSelector.paths := ps; FabridSelector.current := cur;
          FabridSelector.policy := pol |}.
Proof.
  intros Hnd Hcur. pose proof (index_Ok_len _ _ _ Hcur) as Hlen.
  apply index_Ok in Hcur as Hcur'. destruct Hcur' as [Hge Hp].
  assert (Refresh_loop (Fingerprint p) ps 0 0 = cur) as Hloop.
  { destruct (Refresh_loop_found (Fingerprint p) ps 0 0)
      as (k & q & -> & Hk & Hfp & _).
    { apply list_elem_of_fmap. exists p.
      split; [done | by eapply list_elem_of_lookup_2]. }
    assert (k = Z.to_nat cur) as ->; [|lia].
    apply (NoDup_lookup (Fingerprint <$> ps) _ _ (Fingerprint p) Hnd);
      rewrite list_lookup_fmap; [rewrite Hk | rewrite Hp]; simpl;
      congruence. }
  unfold DefaultSelector.Refresh, FabridSelector.Refresh. simpl.
  destruct (decide (len ps > 0)); [|lia].
  rewrite Hcur. simpl. by rewrite Hloop.
Qed.

Lemma Refresh_same_list_noop_witness :
  DefaultSelector.Refresh [Sample.P1; Sample.P2; Sample.P3]
    {| DefaultSelector.paths := [Sample.P1; Sample.P2; Sample.P3];
       DefaultSelector.current := 2 |}
  = Ok {| DefaultSelector.paths := [Sample.P1; Sample.P2; Sample.P3];
          DefaultSelector.current := 2 |}.
Proof.
  refine (proj1 (Refresh_same_list_noop [Sample.P1; Sample.P2; Sample.P3]
                   2 0 Sample.P3 _ eq_refl)).
  simpl. repeat (apply NoDup_cons; split;
    [intros Hin; repeat (apply elem_of_cons in Hin as [Hin|Hin];
                           [discriminate|]); by apply elem_of_nil in Hin|]).
  apply NoDup_nil_2.
Defined.

(** X5.  After [Refresh] a [PingingSelector] answers nil for an empty list
    whatever index the registry gave; for a list that is not empty [Path]
    answers the path at the registry's index when that index lies in the
    list and faults otherwise. *)
Theorem PingingSelector_Path_after_Refresh `{StatsQueries}
    (st : list StatsCall) (ps : list Path) (s : PingingSelector.t) :
  let i := LowestLatency st (PingingSelector.remote s) ps in
  let s' := PingingSelector.Refresh st ps s in
  (ps = [] → PingingSelector.Path s' = Ok None) ∧
  (ps ≠ [] → 0 ≤ i < len ps →
   ∃ p, ps !! Z.to_nat i = Some p ∧ PingingSelector.Path s' = Ok (Some p)) ∧
  (ps ≠ [] → ¬ (0 ≤ i < len ps) →
   PingingSelector.Path s' = Panic IndexOutOfRange).
Proof.
  intros i s'. unfold PingingSelector.Path. simpl. fold i.
  split; [by intros ->|]. split.
  - intros Hne Hi.
    destruct (decide (len ps = 0)) as [E|_].
    { destruct ps; [done | unfold len in E; simpl in E; lia]. }
    destruct (lookup_lt_is_Some_2 ps (Z.to_nat i)) as [p Hp].
    { unfold len in Hi. lia. }
    exists p. split; [done|].
    assert (index ps i = Ok p) as -> by (apply index_Ok; split; [lia|done]).
    done.
  - intros Hne Hi.
    destruct (decide (len ps = 0)) as [E|_].
    { destruct ps; [done | unfold len in E; simpl in E; lia]. }
    unfold index. destruct (decide (0 ≤ i)) as [Hge|]; [|done].
    rewrite lookup_ge_None_2; [done|]. unfold len in Hi. lia.
Qed.

(** ** Further properties of the probing loop *)

(** X6.  A reply that carries an error never yields a latency sample and
    never takes a fingerprint off the awaited set; it reaches the registry
    as one [NotifyPathDown] when its path fingerprint can be computed and
    the error is one of the two interface-down errors (with the egress
    interface for the internal one), and not at all otherwise. *)
Theorem handlePingReply_error_reply `{Pinger} (s : PingingSelector.t)
    (r : Reply) (pending : gset string) (seq : Z) (st : list StatsCall)
    (e : PingError) :
  Error r = Some e →
  let res := PingingSelector.handlePingReply s r pending seq st in
  res.2 = pending ∧
  (∀ R pf, samples_for R pf res.1 = samples_for R pf st) ∧
  res.1 = match reversePathFingerprint (reply_Path r), e with
          | Some pf, InternalConnectivityDownError ia _ egress =>
              NotifyPathDownCall pf {| pi_IA := ia; pi_IfID := egress |} :: st
          | Some pf, ExternalInterfaceDownError ia interface =>
              NotifyPathDownCall pf {| pi_IA := ia; pi_IfID := interface |}
              :: st
          | _, _ => st
          end.
Proof.
  intros He res. subst res. unfold PingingSelector.handlePingReply.
  rewrite He.
  destruct (reversePathFingerprint (reply_Path r)) as [pf|]; [|done].
  by destruct e.
Qed.

Lemma handlePingReply_error_reply_witness :
  @PingingSelector.handlePingReply Sample.pinger Sample.prober
    {| Error := Some (InternalConnectivityDownError 3 31 32);
       Source_IA := 3; Source_Host := HostIP 7; reply_Path := 2;
       SeqNumber := 7; RTT := 0 |} {[ "f1"; "f2" ]} 7 []
  = ([NotifyPathDownCall "f2" (Sample.if_ 3 32)], {[ "f1"; "f2" ]}).
Proof.
  destruct (@handlePingReply_error_reply Sample.pinger Sample.prober
              {| Error := Some (InternalConnectivityDownError 3 31 32);
                 Source_IA := 3; Source_Host := HostIP 7; reply_Path := 2;
                 SeqNumber := 7; RTT := 0 |} {[ "f1"; "f2" ]} 7 []
              (InternalConnectivityDownError 3 31 32) eq_refl)
    as (Hpending & _ & Hstats).
  apply injective_projections; [exact Hstats | exact Hpending].
Defined.

(** X7.  A reply without error that arrives twice is counted once: handed
    to [handlePingReply] again, with the registry and the awaited set the
    first call left, it changes neither. *)
Theorem handlePingReply_duplicate `{Pinger} (s : PingingSelector.t)
    (r : Reply) (pending : gset string) (seq : Z) (st : list StatsCall) :
  Error r = None →
  let res := PingingSelector.handlePingReply s r pending seq st in
  PingingSelector.handlePingReply s r res.2 seq res.1 = res.
Proof.
  intros He res. subst res. unfold PingingSelector.handlePingReply.
  rewrite He. destruct (Source_Host r) as [ip| |]; try done.
  destruct (decide _) as [Hmis|Hmatch]; cbn [fst snd]; [done|].
  destruct (reversePathFingerprint (reply_Path r)) as [pf|];
    cbn [fst snd]; [|done].
  destruct (decide (pf ∈ pending)) as [Hin|Hnin]; cbn [fst snd].
  - rewrite decide_False; [done|].
    rewrite elem_of_difference, elem_of_singleton. by intros [_ ?].
  - by rewrite decide_False.
Qed.

Lemma handlePingReply_duplicate_witness :
  let first := @PingingSelector.handlePingReply Sample.pinger Sample.prober
                 (Sample.echo 1 40) {[ "f1"; "f2" ]} 7 [] in
  first.1 = [RecordLatencyCall (UDPAddr_scionAddr Sample.there) "f1" 40] ∧
  @PingingSelector.handlePingReply Sample.pinger Sample.prober
    (Sample.echo 1 40) first.2 7 first.1 = first.
Proof.
  split; [reflexivity|].
  exact (@handlePingReply_duplicate Sample.pinger Sample.prober
           (Sample.echo 1 40) {[ "f1"; "f2" ]} 7 [] eq_refl).
Defined.

Lemma sendPings_extends `{Pinger} (s : PingingSelector.t) (ps : list Path)
    (seq : Z) (sent sent' : list Probe) :
  PingingSelector.sendPings s ps seq sent = Ok sent' →
  ∃ new, sent' = new ++ sent.
Proof.
  revert sent. induction ps as [|p ps IH]; intros sent; simpl.
  - intros [= <-]. by exists [].
  - destruct (pinger_Send_ok _ p seq); [|done]. intros Hrun.
    destruct (IH _ Hrun) as [new ->]. exists (new ++ [probe_of s seq p]).
    by rewrite <- app_assoc.
Qed.

Lemma sendPings_fails `{Pinger} (s : PingingSelector.t) (ps : list Path)
    (seq : Z) (sent : list Probe) :
  (∃ p, p ∈ ps ∧ pinger_Send_ok (PingingSelector.remote s) p seq = false) →
  PingingSelector.sendPings s ps seq sent = Panic SendFailed.
Proof.
  revert sent. induction ps as [|p ps IH]; intros sent (q & Hq & Hfail).
  - by apply elem_of_nil in Hq.
  - simpl. destruct (pinger_Send_ok _ p seq) eqn:E; [|done].
    apply IH. exists q. split; [|done].
    apply elem_of_cons in Hq as [->|]; [congruence | done].
Qed.

Lemma loop_extends_refl (w : PingingSelector.Loop) : loop_extends w w.
Proof.
  unfold loop_extends. repeat (split; [done|]).
  split; [by exists []|]. split; [by exists [] | done].
Qed.

Lemma loop_extends_trans (w1 w2 w3 : PingingSelector.Loop) :
  loop_extends w1 w2 → loop_extends w2 w3 → loop_extends w1 w3.
Proof.
  unfold loop_extends.
  intros (A1 & A2 & A3 & A4 & A5 & A6 & A7 & [n1 A8] & [p1 A9] & A10)
         (B1 & B2 & B3 & B4 & B5 & B6 & B7 & [n2 B8] & [p2 B9] & B10).
  split; [congruence|]. split; [congruence|]. split; [congruence|].
  split; [congruence|]. split; [congruence|]. split; [congruence|].
  split; [auto|].
  split; [exists (n2 ++ n1); by rewrite B8, A8, app_assoc|].
  split; [exists (p2 ++ p1); by rewrite B9, A9, app_assoc | lia].
Qed.

Lemma handlePingReply_extends `{Pinger} (s : PingingSelector.t) (r : Reply)
    (pending : gset string) (seq : Z) (st : list StatsCall) :
  ∃ new, (PingingSelector.handlePingReply s r pending seq st).1 = new ++ st.
Proof.
  unfold PingingSelector.handlePingReply.
  destruct (Error r) as [e|].
  - destruct (reversePathFingerprint _); [destruct e|];
      (by exists []) || (by eexists [_]).
  - destruct (Source_Host r); try by exists [].
    destruct (decide _); [by exists []|].
    destruct (reversePathFingerprint _); [|by exists []].
    destruct (decide _); [by eexists [_] | by exists []].
Qed.

Lemma expired_extends R T (l : list string) (st : list StatsCall) :
  ∃ new, foldl (λ st pf, RecordLatency R pf T st) st l = new ++ st.
Proof.
  revert st. induction l as [|pf l IH]; intros st; simpl; [by exists []|].
  destruct (IH (RecordLatency R pf T st)) as [new ->].
  exists (new ++ [RecordLatencyCall R pf T]). by rewrite <- app_assoc.
Qed.

Lemma step_extends `{StatsQueries} `{Pinger} (e : PingingSelector.Event)
    (w w' : PingingSelector.Loop) :
  PingingSelector.run [e] w = Ok w' → loop_extends w w'.
Proof.
  destruct e as [| |r|]; simpl.
  - intros [= <-]. apply loop_extends_refl.
  - unfold PingingSelector.on_tick.
    destruct (decide (_ = 0)); simpl.
    { intros [= <-]. apply loop_extends_refl. }
    destruct (slice_to _ _) as [active|]; simpl; [|done].
    destruct (PingingSelector.sendPings _ _ _ _) as [sent'|] eqn:E;
      simpl; [|done].
    intros [= <-]. apply sendPings_extends in E as [new ->].
    unfold loop_extends. simpl. repeat (split; [done|]).
    split; [intros _; unfold uint16; apply Z.mod_pos_bound; lia|].
    split; [by exists []|]. split; [by exists new | done].
  - intros [= <-]. unfold PingingSelector.on_reply.
    destruct (handlePingReply_extends (PingingSelector.sel w) r
                (PingingSelector.replyPending w)
                (PingingSelector.sequenceNo w) (PingingSelector.stats w))
      as [new Hnew].
    destruct (PingingSelector.handlePingReply _ r _ _ _) as [st' pending'].
    simpl in Hnew. subst st'.
    destruct (decide _); unfold loop_extends; simpl;
      repeat (split; [done|]);
      (split; [by exists new|]); (split; [by exists []|]); lia.
  - intros [= <-]. unfold PingingSelector.on_timeout.
    destruct (decide _).
    + unfold loop_extends; simpl. repeat (split; [done|]).
      split; [by exists []|]. split; [by exists [] | done].
    + rewrite expire_all.
      destruct (expired_extends
                  (PingingSelector.remote (PingingSelector.sel w))
                  (PingingSelector.Timeout (PingingSelector.sel w))
                  (elements (PingingSelector.replyPending w))
                  (PingingSelector.stats w)) as [new Hnew].
      unfold loop_extends; simpl. repeat (split; [done|]).
      split; [by exists new|]. split; [by exists []|]. lia.
Qed.

(** X8.  Whatever events the loop has handled, ticks included, it has left
    the list of candidates, the local and remote identities, the interval,
    the time-out and the active count of its selector alone; its sequence
    number is still within 16 bits; and the registry calls, the probes and
    the count of reselections have only grown. *)
Theorem run_extends `{StatsQueries} `{Pinger}
    (evs : list PingingSelector.Event) (w w' : PingingSelector.Loop) :
  PingingSelector.run evs w = Ok w' → loop_extends w w'.
Proof.
  revert w. induction evs as [|e evs IH]; intros w Hrun.
  - simpl in Hrun. inversion Hrun; subst. apply loop_extends_refl.
  - destruct e as [| |r|]; simpl in Hrun.
    + inversion Hrun; subst. apply loop_extends_refl.
    + destruct (PingingSelector.on_tick w) as [w1|] eqn:E; [|done].
      simpl in Hrun. eapply loop_extends_trans; [|by apply IH].
      apply (step_extends PingingSelector.Tick). simpl. by rewrite E.
    + eapply loop_extends_trans; [|by apply IH].
      by apply (step_extends (PingingSelector.ReplyEv r)).
    + eapply loop_extends_trans; [|by apply IH].
      by apply (step_extends PingingSelector.TimeoutEv).
Qed.

Lemma run_extends_witness :
  ∃ w', @PingingSelector.run Sample.registry Sample.pinger
          [PingingSelector.Tick; PingingSelector.ReplyEv (Sample.echo 1 40);
           PingingSelector.TimeoutEv; PingingSelector.Tick] Sample.idle
        = Ok w' ∧
        loop_extends Sample.idle w'.
Proof.
  eexists. split; [vm_compute; reflexivity|].
  apply (@run_extends Sample.registry Sample.pinger
           [PingingSelector.Tick; PingingSelector.ReplyEv (Sample.echo 1 40);
            PingingSelector.TimeoutEv; PingingSelector.Tick]).
  vm_compute. reflexivity.
Defined.

(** X9.  A tick faults in two cases only.  With a negative active count it
    faults on the slice [s.paths[:numActive]], whatever the list holds;
    with a positive number [k] of paths to probe it faults as soon as one
    of the [k] sends fails.  With [k = 0] it does nothing. *)
Theorem on_tick_faults `{Pinger} (w : PingingSelector.Loop) :
  let s := PingingSelector.sel w in
  let n := PingingSelector.numActive s in
  let k := Z.min n (len (PingingSelector.paths s)) in
  (n < 0 → PingingSelector.on_tick w = Panic IndexOutOfRange) ∧
  (k = 0 → PingingSelector.on_tick w = Ok w) ∧
  (0 < k →
   (∃ p, p ∈ take (Z.to_nat k) (PingingSelector.paths s) ∧
         pinger_Send_ok (PingingSelector.remote s) p
           (uint16 (PingingSelector.sequenceNo w + 1)) = false) →
   PingingSelector.on_tick w = Panic SendFailed).
Proof.
  intros s n k. unfold PingingSelector.on_tick. fold s. fold n.
  assert ((if decide (n > len (PingingSelector.paths s))
           then len (PingingSelector.paths s) else n) = k) as ->.
  { unfold k. destruct (decide _); lia. }
  assert (0 ≤ len (PingingSelector.paths s)) as Hlen by (unfold len; lia).
  split; [|split].
  - intros Hn. destruct (decide (k = 0)); [lia|].
    unfold slice_to. destruct (decide (0 ≤ k ≤ _)); [lia | done].
  - intros ->. done.
  - intros Hk Hfail. destruct (decide (k = 0)); [lia|].
    unfold slice_to. destruct (decide (0 ≤ k ≤ _)); [|lia].
    simpl. by rewrite sendPings_fails.
Qed.

Lemma reply_while_idle_reselects_witness :
  PingingSelector.reselections
    (@PingingSelector.on_reply Sample.registry Sample.pinger
       (Sample.echo 1 40) Sample.idle) = 1%nat.
Proof.
  exact (@reply_while_idle_reselects Sample.registry Sample.pinger
           (Sample.echo 1 40) Sample.idle eq_refl).
Defined.

(** ** Further properties of FabridSelector.Initialize *)

(** X10.  When the first path carries a SCION dataplane path and building
    the FABRID path, listing the services, resolving the control service or
    dialing it fails, [Initialize] returns with the selector exactly as it
    was: the paths handed in are not stored.  When the daemon lists no
    control service at all, [Initialize] faults. *)
Theorem Initialize_control_plane_failure `{ControlPlane}
    (local remote : UDPAddr) (raw ul : Z) (md : PathMetadata) (fp : string)
    (rest : list Path) (s : FabridSelector.t)
    (hops : list FabridPolicyPerHop) :
  let p := {| path_ForwardingPath :=
                {| dataplanePath := DP_SCION raw; underlay := ul |};
              path_Metadata := md; Fingerprint := fp |} in
  let cfg := {| fc_LocalIA := ua_IA local; fc_LocalAddr := ua_IP local;
                fc_DestinationIA := ua_IA remote;
                fc_DestinationAddr := ua_IP remote |} in
  let built := NewFABRIDDataplanePath_ok raw
                 (convertInterfaces (Interfaces md)) hops cfg fp in
  FabridSelector.Initialize_hops (FabridSelector.policy s) (Interfaces md)
  = Ok hops →
  (built = false ∨ SVCInfo = None ∨
   (∃ service services, SVCInfo = Some (service :: services) ∧
      (ResolveTCPAddr service = None ∨ grpc_DialContext_ok service = false)) →
   FabridSelector.Initialize local remote (p :: rest) s = Ok s) ∧
  (built = true → SVCInfo = Some [] →
   FabridSelector.Initialize local remote (p :: rest) s
   = Panic IndexOutOfRange).
Proof.
  intros p cfg built Hhops. unfold FabridSelector.Initialize. simpl.
  rewrite Hhops. simpl. fold cfg. fold built. split.
  - intros [Hb|[Hsvc|(service & services & Hsvc & Hfail)]].
    + by rewrite Hb.
    + destruct built; [by rewrite Hsvc | done].
    + destruct built; [|done]. rewrite Hsvc. simpl.
      destruct Hfail as [Hr|Hd]; [by rewrite Hr|].
      destruct (ResolveTCPAddr service); [by rewrite Hd | done].
  - intros Hb Hsvc. by rewrite Hb, Hsvc.
Qed.

Lemma Initialize_control_plane_failure_witness :
  @FabridSelector.Initialize Sample.cp_down Sample.here Sample.there
    [Sample.P1; Sample.P2] (FabridSelector.NewFabridSelector 9)
  = Ok (FabridSelector.NewFabridSelector 9).
Proof.
  refine (proj1 (@Initialize_control_plane_failure Sample.cp_down
                   Sample.here Sample.there 1 0
                   (path_Metadata Sample.P1) "f1" [Sample.P2]
                   (FabridSelector.NewFabridSelector 9) _ eq_refl) _).
  right. left. reflexivity.
Defined.

(** X11.  Whenever [Initialize] returns without fault it has either left
    the selector as it was, or stored the list it was given with index 0:
    same length, same fingerprints and metadata in the same order, same
    underlay addresses, and every path but the first untouched. *)
Theorem Initialize_stores_given_list `{ControlPlane} (local remote : UDPAddr)
    (ps : list Path) (s s' : FabridSelector.t) :
  FabridSelector.Initialize local remote ps s = Ok s' →
  s' = s ∨
  (FabridSelector.current s' = 0 ∧
   FabridSelector.policy s' = FabridSelector.policy s ∧
   ps ≠ [] ∧
   length (FabridSelector.paths s') = length ps ∧
   Fingerprint <$> FabridSelector.paths s' = Fingerprint <$> ps ∧
   path_Metadata <$> FabridSelector.paths s' = path_Metadata <$> ps ∧
   (λ q, underlay (path_ForwardingPath q)) <$> FabridSelector.paths s'
   = (λ q, underlay (path_ForwardingPath q)) <$> ps ∧
   drop 1 (FabridSelector.paths s') = drop 1 ps).
Proof.
  unfold FabridSelector.Initialize.
  destruct ps as [|p rest]; [done|]. simpl.
  destruct (FabridSelector.Initialize_hops _ _) as [hops|]; simpl; [|done].
  destruct (dataplanePath (path_ForwardingPath p)) as [raw|f|tag].
  - destruct (NewFABRIDDataplanePath_ok _ _ _ _ _); [|intros [= <-]; by left].
    destruct SVCInfo as [services|]; [|intros [= <-]; by left].
    destruct (index services 0) as [svc|]; simpl; [|done].
    destruct (ResolveTCPAddr svc); [|intros [= <-]; by left].
    destruct (grpc_DialContext_ok svc); [|intros [= <-]; by left].
    intros [= <-]. right. simpl. by repeat split.
  - intros [= <-]. right. simpl. by repeat split.
  - intros [= <-]. right. simpl. by repeat split.
Qed.

Lemma Initialize_stores_given_list_witness :
  ∃ s', @FabridSelector.Initialize Sample.cp_up Sample.here Sample.there
          [Sample.P1; Sample.P2] (FabridSelector.NewFabridSelector 9)
        = Ok s' ∧
        Fingerprint <$> FabridSelector.paths s' = ["f1"; "f2"] ∧
        drop 1 (FabridSelector.paths s') = [Sample.P2].
Proof.
  eexists. split; [vm_compute; reflexivity|].
  destruct (@Initialize_stores_given_list Sample.cp_up Sample.here
              Sample.there [Sample.P1; Sample.P2]
              (FabridSelector.NewFabridSelector 9) _ eq_refl)
    as [Hsame|(_ & _ & _ & _ & Hfp & _ & _ & Hrest)].
  - discriminate Hsame.
  - split; [exact Hfp | exact Hrest].
Defined.

Lemma Initialize_loop_Forall (P : FabridPolicyPerHop → Prop) pol rest :
  (∀ a b, P (interior_hop pol a b)) →
  Forall P (FabridSelector.Initialize_loop pol rest []).
Proof.
  intros HP. induction rest as [|a|a b l IH] using pair_ind; simpl;
    try by constructor.
  rewrite Initialize_loop_app. apply Forall_app. split; [|done].
  constructor; [apply HP | constructor].
Qed.

Lemma uint16_range (x : Z) : 0 ≤ uint16 x < 65536.
Proof. unfold uint16. apply Z.mod_pos_bound. lia. Qed.

(** X12.  For every list of interfaces that is not empty, of length [L],
    the records are built without fault and number [(L-1)/2 + 2]; all
    carry the client's policy and interface ids within 16 bits, the first
    has no ingress and the last no egress. *)
Theorem Initialize_hops_total (pol : Z) (ifaces : list PathInterface) :
  ifaces ≠ [] →
  ∃ hops,
    FabridSelector.Initialize_hops pol ifaces = Ok hops ∧
    length hops = ((length ifaces - 1) / 2 + 2)%nat ∧
    Forall (λ h, hop_Pol h = pol ∧ 0 ≤ hop_Ingress h < 65536 ∧
                 0 ≤ hop_Egress h < 65536) hops ∧
    hop_Ingress <$> head hops = Some 0 ∧
    hop_Egress <$> last hops = Some 0.
Proof.
  intros Hne. destruct ifaces as [|i0 rest]; [done|].
  destruct (lookup_lt_is_Some_2 (i0 :: rest) (length rest)) as [l Hl];
    [simpl; lia|].
  unfold FabridSelector.Initialize_hops.
  assert (index (i0 :: rest) 0 = Ok i0) as -> by done.
  assert (index (i0 :: rest) (len (i0 :: rest) - 1) = Ok l) as ->.
  { apply index_Ok. unfold len. cbn [length]. split; [lia|].
    replace (Z.to_nat (Z.of_nat (S (length rest)) - 1))
      with (length rest) by lia. done. }
  simpl mbind. rewrite Initialize_loop_app. simpl drop. rewrite drop_0.
  eexists. split; [reflexivity|]. split; [|split; [|split]].
  - rewrite !length_app, Initialize_loop_length. cbn [length].
    replace (S (length rest) - 1)%nat with (length rest) by lia. lia.
  - pose proof (uint16_range (pi_IfID i0)). pose proof (uint16_range (pi_IfID l)).
    apply Forall_app. split; [apply Forall_app; split|].
    + constructor; [simpl; lia | constructor].
    + apply Initialize_loop_Forall. intros a b. simpl.
      pose proof (uint16_range (pi_IfID a)).
      pose proof (uint16_range (pi_IfID b)). lia.
    + constructor; [simpl; lia | constructor].
  - done.
  - by rewrite last_snoc.
Qed.

Lemma Initialize_hops_total_witness :
  ∃ hops,
    FabridSelector.Initialize_hops 9 [Sample.if_ 1 70000] = Ok hops ∧
    length hops = 2%nat.
Proof.
  assert ([Sample.if_ 1 70000] ≠ []) as Hne by discriminate.
  destruct (Initialize_hops_total 9 [Sample.if_ 1 70000] Hne)
    as (hops & Hrun & Hlen & _).
  exists hops. split; [exact Hrun | exact Hlen].
Defined.

(** ** Further properties of the reply cache *)

Lemma mru_insert_spec_head (C : nat) (p : Path) (l : list Path) :
  ∃ tl, mru_insert_spec C p l = p :: tl.
Proof.
  unfold mru_insert_spec.
  destruct (list_find _ l) as [[k q]|]; [by eexists|].
  destruct (decide _); by eexists.
Qed.

Lemma Record_then_Path_aux `{ReplyConfig} (now : Z) (remote : UDPAddr)
    (p : Path) (s : DefaultReplySelector.t) :
  1 ≤ defaultSelectorMaxReplyPaths →
  ∃ s', DefaultReplySelector.Record_ now remote (Some p) s = Ok s' ∧
        DefaultReplySelector.Path remote s' = Some p.
Proof.
  intros HC. unfold DefaultReplySelector.Record_.
  rewrite insert_refines_spec by done. simpl.
  eexists. split; [reflexivity|].
  unfold DefaultReplySelector.Path. simpl. rewrite lookup_insert_eq. simpl.
  by destruct (mru_insert_spec_head (Z.to_nat defaultSelectorMaxReplyPaths) p
                 (re_paths (default {| re_paths := []; re_seen := 0 |}
                              (DefaultReplySelector.remotes s !! remote))))
    as [tl ->].
Qed.

(** X13.  With a capacity of at least one, [Record] of a path for a remote
    succeeds in every state of the selector; afterwards [Path] answers
    that path for the remote, the entry carries the time of the call, and
    the entries of all other remotes are as before.  [Record] of a nil
    path changes nothing. *)
Theorem Record_then_Path `{ReplyConfig} (now : Z) (remote : UDPAddr)
    (p : Path) (s : DefaultReplySelector.t) :
  1 ≤ defaultSelectorMaxReplyPaths →
  DefaultReplySelector.Record_ now remote None s = Ok s ∧
  ∃ s', DefaultReplySelector.Record_ now remote (Some p) s = Ok s' ∧
        DefaultReplySelector.Path remote s' = Some p ∧
        re_seen <$> DefaultReplySelector.remotes s' !! remote = Some now ∧
        ∀ other, other ≠ remote →
          DefaultReplySelector.remotes s' !! other
          = DefaultReplySelector.remotes s !! other.
Proof.
  intros HC. split; [done|]. unfold DefaultReplySelector.Record_.
  rewrite insert_refines_spec by done. simpl.
  eexists. split; [reflexivity|].
  unfold DefaultReplySelector.Path. simpl. rewrite lookup_insert_eq. simpl.
  destruct (mru_insert_spec_head (Z.to_nat defaultSelectorMaxReplyPaths) p
              (re_paths (default {| re_paths := []; re_seen := 0 |}
                           (DefaultReplySelector.remotes s !! remote))))
    as [tl ->].
  split; [done|]. split; [done|].
  intros other Hne. by rewrite lookup_insert_ne.
Qed.

Lemma Record_then_Path_witness :
  ∃ s', @DefaultReplySelector.Record_ Sample.cache2 5 Sample.there
          (Some Sample.P2) DefaultReplySelector.NewDefaultReplySelector
        = Ok s' ∧
        DefaultReplySelector.Path Sample.there s' = Some Sample.P2.
Proof.
  assert (1 ≤ @defaultSelectorMaxReplyPaths Sample.cache2) as HC
    by (simpl; lia).
  destruct (@Record_then_Path Sample.cache2 5 Sample.there Sample.P2
              DefaultReplySelector.NewDefaultReplySelector HC)
    as (_ & s' & Hrun & Hpath & _).
  exists s'. split; [exact Hrun | exact Hpath].
Defined.

Lemma mru_insert_spec_NoDup (C : nat) (p : Path) (l : list Path) :
  NoDup (Fingerprint <$> l) →
  NoDup (Fingerprint <$> mru_insert_spec C p l).
Proof.
  intros Hnd. unfold mru_insert_spec.
  destruct (list_find _ l) as [[k q]|] eqn:Hfind.
  - apply list_find_Some in Hfind as (Hk & Hq & _).
    rewrite <- (filter_is_delete (Fingerprint p) l k q) by done.
    simpl. apply NoDup_cons. split.
    + rewrite list_elem_of_fmap. intros (x & Hfp & Hx).
      apply list_elem_of_filter in Hx as [Hne _]. congruence.
    + eapply sublist_NoDup; [exact Hnd|].
      apply fmap_sublist, sublist_filter.
  - apply list_find_None in Hfind.
    assert (Fingerprint p ∉ Fingerprint <$> l) as Hnin.
    { rewrite list_elem_of_fmap. intros (x & Hfp & Hx).
      rewrite Forall_forall in Hfind. by apply (Hfind x Hx). }
    destruct (decide _); simpl; apply NoDup_cons.
    + by split.
    + split.
      * intros Hin. apply Hnin.
        apply list_elem_of_fmap in Hin as (x & Hfp & Hx).
        apply list_elem_of_fmap. exists x. split; [done|].
        apply list_elem_of_lookup in Hx as [i Hi].
        apply lookup_take_Some in Hi as [Hi _].
        by eapply list_elem_of_lookup_2.
      * eapply sublist_NoDup; [exact Hnd|].
        apply fmap_sublist, sublist_take.
Qed.

(** X14.  With a capacity [C] of at least one, [insert] succeeds on every
    list; the path inserted is then first, the list is no longer than the
    longer of [C] and the list before, it holds no path that was not there
    or just inserted, fingerprints that were pairwise distinct still are,
    and inserting the same path again changes nothing. *)
Theorem insert_keeps_cache_shape (p : Path) (C : Z) (l : list Path) :
  1 ≤ C →
  ∃ l', pathsMRU.insert p C l = Ok l' ∧
        head l' = Some p ∧
        len l' ≤ Z.max (len l) C ∧
        (∀ q, q ∈ l' → q = p ∨ q ∈ l) ∧
        (NoDup (Fingerprint <$> l) → NoDup (Fingerprint <$> l')) ∧
        pathsMRU.insert p C l' = Ok l'.
Proof.
  intros HC. rewrite insert_refines_spec by done.
  eexists. split; [reflexivity|].
  destruct (mru_insert_spec_head (Z.to_nat C) p l) as [tl Htl].
  split; [by rewrite Htl|]. split; [|split; [|split]].
  - unfold mru_insert_spec, len.
    destruct (list_find _ l) as [[k q]|] eqn:Hfind.
    + apply list_find_Some in Hfind as (Hk & _ & _).
      pose proof (lookup_lt_Some _ _ _ Hk). simpl.
      rewrite length_delete by eauto. lia.
    + destruct (decide _); simpl; [lia|]. rewrite length_take. lia.
  - unfold mru_insert_spec. intros q.
    destruct (list_find _ l) as [[k x]|].
    + rewrite elem_of_cons. intros [?|Hq]; [by left|]. right.
      rewrite delete_take_drop in Hq. apply elem_of_app in Hq as [Hq|Hq].
      * apply list_elem_of_lookup in Hq as [i Hi].
        apply lookup_take_Some in Hi as [Hi _].
        by eapply list_elem_of_lookup_2.
      * apply list_elem_of_lookup in Hq as [i Hi].
        rewrite lookup_drop in Hi. by eapply list_elem_of_lookup_2.
    + destruct (decide _); rewrite elem_of_cons; intros [?|Hq];
        try (by left); right; [done|].
      apply list_elem_of_lookup in Hq as [i Hi].
      apply lookup_take_Some in Hi as [Hi _].
      by eapply list_elem_of_lookup_2.
  - apply mru_insert_spec_NoDup.
  - rewrite insert_refines_spec by done. f_equal. rewrite Htl.
    unfold mru_insert_spec. simpl. by rewrite decide_True.
Qed.

Lemma insert_keeps_cache_shape_witness :
  ∃ l', pathsMRU.insert Sample.P1 2 [Sample.P3; Sample.P2] = Ok l' ∧
        head l' = Some Sample.P1 ∧ len l' ≤ 2.
Proof.
  assert (1 ≤ 2) as HC by lia.
  destruct (insert_keeps_cache_shape Sample.P1 2 [Sample.P3; Sample.P2] HC)
    as (l' & Hrun & Hhead & Hlen & _).
  exists l'. split; [exact Hrun|]. split; [exact Hhead | exact Hlen].
Defined.

(** X15.  [insert] faults in one case only: on an empty list with a
    capacity below one, where it writes at index -1.  On a list that is
    not empty it succeeds whatever the capacity. *)
Theorem insert_faults_only_on_empty (p : Path) (C : Z) (l : list Path) :
  (l = [] → C ≤ 0 → pathsMRU.insert p C l = Panic IndexOutOfRange) ∧
  (l ≠ [] → ∃ l', pathsMRU.insert p C l = Ok l').
Proof.
  split.
  - intros -> HC. unfold pathsMRU.insert. simpl pathsMRU.insert_loop.
    change (len (@nil Path)) with 0.
    destruct (decide (0 = 0)) as [_|]; [|done].
    destruct (decide (0 < C)); [lia|].
    unfold set_index. change (len (@nil Path)) with 0.
    destruct (decide (0 ≤ 0 - 1 < 0)); [lia | done].
  - intros Hne. destruct (decide (1 ≤ C)) as [HC|HC].
    { rewrite insert_refines_spec by done. by eexists. }
    assert (pathsMRU.insert p C l = pathsMRU.insert p 1 l) as ->.
    { unfold pathsMRU.insert.
      destruct (decide (_ = len l)); [|done].
      assert (1 ≤ len l) by (destruct l; [done | unfold len; simpl; lia]).
      destruct (decide (len l < C)); [lia|].
      destruct (decide (len l < 1)); [lia | done]. }
    rewrite insert_refines_spec by lia. by eexists.
Qed.

(** ** Dialing *)

(** X16.  [DialUDP] towards another domain with a nil selector, when the
    socket opens and the pool answers, returns a connection whose
    subscriber carries the policy and whose selector holds the filtered
    paths: [GetPath] answers the first of them, and [Write] sends on it,
    or returns the no-path error when the filter leaves none. *)
Theorem DialUDP_then_Write `{StatsQueries} `{HostEnv} `{Transport}
    (st : list StatsCall) (local bound ipport : IP * Z) (remote : UDPAddr)
    (policy : option (list Path → list Path)) (paths : list Path)
    (b : list Z) :
  defaultLocalAddr local = inr bound →
  OpenRaw bound = inr ipport →
  ua_IA remote ≠ host_ia →
  pool_subscribe (ua_IA remote) = inr paths →
  let localUDPAddr :=
    {| ua_IA := host_ia; ua_IP := ipport.1; ua_Port := ipport.2 |} in
  ∃ c, DialUDP st local remote policy None = Ok (inr c) ∧
       dialedConn.local c = localUDPAddr ∧
       dialedConn.remote c = remote ∧
       dialedConn.subscriber c
       = Some {| remoteIA := ua_IA remote; sub_policy := policy |} ∧
       dialedConn_GetPath c = Ok (head (filtered policy paths)) ∧
       dialedConn.Write b c
       = Ok (match head (filtered policy paths) with
             | Some p =>
                 writeMsg {| written := [] |} localUDPAddr remote (Some p) b
                   None
             | None =>
                 ({| written := [] |}, (0, Some (errNoPathTo (ua_IA remote))))
             end).
Proof.
  intros Hlocal Hraw Hia Hpool localUDPAddr.
  unfold DialUDP. rewrite Hlocal, Hraw. simpl.
  destruct (decide _) as [_|]; [|done].
  unfold openPathRefreshSubscriber. rewrite Hpool. simpl.
  eexists. split; [reflexivity|]. simpl. do 3 (split; [done|]).
  unfold dialedConn_GetPath, dialedConn.Write, dialedConn.selector_Path.
  simpl. unfold DefaultSelector.Path. simpl.
  destruct (filtered policy paths) as [|p rest]; simpl;
    (destruct (decide (host_ia ≠ ua_IA remote)) as [_|Hn];
       [done | exfalso; apply Hn; congruence]).
Qed.

Lemma DialUDP_then_Write_witness :
  ∃ c, @DialUDP Sample.registry Sample.host [] (100, 4000) Sample.there
         (Some (drop 1)) None = Ok (inr c) ∧
       dialedConn_GetPath c = Ok (Some Sample.P2).
Proof.
  destruct (@DialUDP_then_Write Sample.registry Sample.host Sample.transport
              [] (100, 4000) (100, 4000) (100, 4000) Sample.there
              (Some (drop 1)) [Sample.P1; Sample.P2] [])
    as (c & Hdial & _ & _ & _ & Hpath & _);
    [reflexivity | reflexivity | simpl; lia | reflexivity |].
  exists c. split; [exact Hdial | exact Hpath].
Defined.

(** X17.  [DialUDPWithFabrid] faults instead of returning an error in two
    cases: when the daemon answers without any control service, and when
    control plane and sockets are up, the remote is in another domain and
    the policy leaves no path, where [FabridSelector.Initialize] reads
    [paths[0]]. *)
Theorem DialUDPWithFabrid_faults `{StatsQueries} `{ControlPlane} `{HostEnv}
    `{FabridHost} (st : list StatsCall) (local bound : IP * Z)
    (slocal remote : UDPAddr) (policy : option (list Path → list Path))
    (pol : Z) (service : string) (services : list string) (controlAddr : Z)
    (paths : list Path) :
  (SVCInfo = Some [] →
   DialUDPWithFabrid st local remote policy pol = Panic IndexOutOfRange) ∧
  (SVCInfo = Some (service :: services) →
   ResolveTCPAddr service = Some controlAddr →
   grpc_DialContext_ok service = true →
   defaultLocalAddr local = inr bound →
   openBaseUDPConn bound = inr slocal →
   ua_IA remote ≠ ua_IA slocal →
   pool_subscribe (ua_IA remote) = inr paths →
   filtered policy paths = [] →
   DialUDPWithFabrid st local remote policy pol = Panic IndexOutOfRange).
Proof.
  unfold DialUDPWithFabrid. split.
  - by intros ->.
  - intros -> Hres Hdial Hlocal Hopen Hia Hpool Hnone. simpl.
    rewrite Hres, Hdial, Hlocal, Hopen.
    destruct (decide _) as [_|]; [|done].
    unfold openPathRefreshSubscriber. rewrite Hpool, Hnone. done.
Qed.

(** X18.  [DialUDPWithFabrid] towards the local domain, with control
    plane and socket up, subscribes to no pool and keeps a fresh
    [FabridSelector] that was never initialized: [GetPath] answers nil,
    and [Write] sends with a nil path. *)
Theorem DialUDPWithFabrid_local `{StatsQueries} `{ControlPlane} `{HostEnv}
    `{FabridHost} `{Transport} (st : list StatsCall) (local bound : IP * Z)
    (slocal remote : UDPAddr) (policy : option (list Path → list Path))
    (pol : Z) (service : string) (services : list string) (controlAddr : Z)
    (b : list Z) :
  SVCInfo = Some (service :: services) →
  ResolveTCPAddr service = Some controlAddr →
  grpc_DialContext_ok service = true →
  defaultLocalAddr local = inr bound →
  openBaseUDPConn bound = inr slocal →
  ua_IA remote = ua_IA slocal →
  ∃ fc, DialUDPWithFabrid st local remote policy pol = Ok (inr fc) ∧
        fdc_fabridClient fc = pol ∧
        dialedConn.subscriber (fdc_dialedConn fc) = None ∧
        dialedConn.selector (fdc_dialedConn fc)
        = Some (FabridSelector_obj pol) ∧
        dialedConn_GetPath (fdc_dialedConn fc) = Ok None ∧
        dialedConn.Write b (fdc_dialedConn fc)
        = Ok (writeMsg {| written := [] |} slocal remote None b None).
Proof.
  unfold DialUDPWithFabrid. intros -> Hres Hdial Hlocal Hopen Hia. simpl.
  rewrite Hres, Hdial, Hlocal, Hopen.
  destruct (decide _) as [|_]; [done|].
  eexists. split; [reflexivity|]. simpl. do 3 (split; [done|]).
  split; [done|]. unfold dialedConn.Write. simpl.
  destruct (decide _) as [Hn|_]; [|done]. exfalso. by apply Hn.
Qed.

Lemma DialUDPWithFabrid_local_witness :
  ∃ fc, @DialUDPWithFabrid Sample.registry Sample.cp_up Sample.host
          Sample.fabrid_host [] (100, 4000) Sample.neighbour None 9
        = Ok (inr fc) ∧
        dialedConn_GetPath (fdc_dialedConn fc) = Ok None.
Proof.
  destruct (@DialUDPWithFabrid_local Sample.registry Sample.cp_up
              Sample.host Sample.fabrid_host Sample.transport []
              (100, 4000) (100, 4000) Sample.here Sample.neighbour None 9
              "10.0.0.1:30252" [] 1 [])
    as (fc & Hdial & _ & _ & _ & Hpath & _); try reflexivity.
  exists fc. split; [exact Hdial | exact Hpath].
Defined.

(** ** Reading *)

(** X19.  [dialedConn.Read] returns for the first result of [readMsg] that
    is an error or comes from the connected remote, with that result's
    byte count and error; everything before it came without error from
    other senders and is dropped.  It keeps waiting exactly when all
    results are of that kind. *)
Theorem Read_returns_first_from_remote (c : dialedConn.t)
    (queue : list Incoming) :
  (∀ r rest,
     dialedConn_Read c queue = Some (r, rest) ↔
     ∃ skipped m, queue = skipped ++ m :: rest ∧
                  Forall (foreign_packet c) skipped ∧
                  ¬ foreign_packet c m ∧
                  r = (in_n m, in_err m)) ∧
  (dialedConn_Read c queue = None ↔ Forall (foreign_packet c) queue).
Proof.
  induction queue as [|x queue [IHsome IHnone]]; simpl.
  - split.
    + intros r rest. split; [done|].
      intros (skipped & m & Hq & _). by destruct skipped.
    + split; [constructor | done].
  - destruct (in_err x) as [err|] eqn:Herr.
    + split.
      * intros r rest. split.
        -- intros [= <- <-]. exists [], x. split; [done|].
           split; [constructor|]. split; [|by rewrite Herr].
           intros [He _]. congruence.
        -- intros (skipped & m & Hq & Hsk & Hm & ->).
           destruct skipped as [|y skipped]; simpl in Hq.
           ++ inversion Hq; subst. by rewrite Herr.
           ++ inversion Hq; subst. inversion Hsk as [|? ? [He _] _]; subst.
              congruence.
      * split; [done|]. intros Hall. inversion Hall as [|? ? [He _] _].
        congruence.
    + destruct (decide (in_remote x ≠ dialedConn.remote c)) as [Hne|Heq].
      * split.
        -- intros r rest. rewrite IHsome. split.
           ++ intros (skipped & m & -> & Hsk & Hm & ->).
              exists (x :: skipped), m. split; [done|].
              split; [by constructor | done].
           ++ intros (skipped & m & Hq & Hsk & Hm & ->).
              destruct skipped as [|y skipped]; simpl in Hq;
                inversion Hq; subst.
              ** exfalso. by apply Hm.
              ** inversion Hsk; subst. by exists skipped, m.
        -- rewrite IHnone. split; [by constructor|].
           by inversion 1.
      * apply dec_stable in Heq. split.
        -- intros r rest. split.
           ++ intros [= <- <-]. exists [], x. split; [done|].
              split; [constructor|]. split; [|by rewrite Herr].
              by intros [_ ?].
           ++ intros (skipped & m & Hq & Hsk & Hm & ->).
              destruct skipped as [|y skipped]; simpl in Hq;
                inversion Hq; subst.
              ** by rewrite Herr.
              ** inversion Hsk as [|? ? [_ Hr] _]; subst. done.
        -- split; [done|]. intros Hall.
           inversion Hall as [|? ? [_ Hr] _]. done.
Qed.

(** X20.  [dialedConn.ReadVia] returns for the first result of [readMsg]
    that is an error, or a packet from the connected remote whose path
    [reversePathFromForwardingPath] reverses without error: an error is
    returned with a nil path, a packet with the reversed path and no
    error.  Every result before that one came without error and was from
    another sender or had no reversible path, and is dropped.  It returns
    whenever there is such a result, and keeps waiting exactly when every
    result is of the dropped kind. *)
Theorem ReadVia_returns_reversible_from_remote `{PathReverser}
    (c : dialedConn.t) (queue : list Incoming) :
  (∀ n path err rest,
     dialedConn_ReadVia c queue = Some ((n, path, err), rest) ↔
     ∃ skipped m,
       queue = skipped ++ m :: rest ∧
       Forall (unusable_packet c) skipped ∧
       n = in_n m ∧
       ((∃ e, in_err m = Some e ∧ err = Some e ∧ path = None) ∨
        (in_err m = None ∧ err = None ∧
         in_remote m = dialedConn.remote c ∧
         reversePathFromForwardingPath (ua_IA (dialedConn.remote c))
           (ua_IA (dialedConn.local c)) (in_fwPath m) = (path, None)))) ∧
  (dialedConn_ReadVia c queue = None ↔ Forall (unusable_packet c) queue).
Proof.
  induction queue as [|x queue [IHsome IHnone]]; simpl.
  { split.
    - intros n path err rest. split; [done|].
      intros (skipped & m & Hq & _). by destruct skipped.
    - split; [constructor | done]. }
  assert (∀ n path err rest,
            (∃ skipped m,
               x :: queue = skipped ++ m :: rest ∧
               Forall (unusable_packet c) skipped ∧
               n = in_n m ∧
               ((∃ e, in_err m = Some e ∧ err = Some e ∧ path = None) ∨
                (in_err m = None ∧ err = None ∧
                 in_remote m = dialedConn.remote c ∧
                 reversePathFromForwardingPath (ua_IA (dialedConn.remote c))
                   (ua_IA (dialedConn.local c)) (in_fwPath m)
                 = (path, None)))) →
            ¬ unusable_packet c x →
            rest = queue ∧ n = in_n x ∧
            ((∃ e, in_err x = Some e ∧ err = Some e ∧ path = None) ∨
             (in_err x = None ∧ err = None ∧
              in_remote x = dialedConn.remote c ∧
              reversePathFromForwardingPath (ua_IA (dialedConn.remote c))
                (ua_IA (dialedConn.local c)) (in_fwPath x)
              = (path, None)))) as Hhead.
  { intros n path err rest (skipped & m & Hq & Hsk & Hn & Hm) Hx.
    destruct skipped as [|y skipped]; simpl in Hq; inversion Hq; subst.
    - done.
    - inversion Hsk; subst. done. }
  assert (∀ n path err rest,
            unusable_packet c x →
            (∃ skipped m,
               x :: queue = skipped ++ m :: rest ∧
               Forall (unusable_packet c) skipped ∧
               n = in_n m ∧
               ((∃ e, in_err m = Some e ∧ err = Some e ∧ path = None) ∨
                (in_err m = None ∧ err = None ∧
                 in_remote m = dialedConn.remote c ∧
                 reversePathFromForwardingPath (ua_IA (dialedConn.remote c))
                   (ua_IA (dialedConn.local c)) (in_fwPath m)
                 = (path, None)))) ↔
            dialedConn_ReadVia c queue = Some ((n, path, err), rest))
    as Htail.
  { intros n path err rest Hx. rewrite IHsome. split.
    - intros (skipped & m & Hq & Hsk & Hn & Hm).
      destruct skipped as [|y skipped]; simpl in Hq; inversion Hq; subst.
      + exfalso. destruct Hx as [Hxe Hxr].
        destruct Hm as [(e & He & _)|(_ & _ & Hrem & Hrev)]; [congruence|].
        destruct Hxr as [Hne|Hbad]; [done|]. by rewrite Hrev in Hbad.
      + inversion Hsk; subst. by exists skipped, m.
    - intros (skipped & m & -> & Hsk & Hn & Hm).
      exists (x :: skipped), m. split; [done|].
      split; [by constructor | done]. }
  destruct (in_err x) as [e|] eqn:Herr.
  - assert (¬ unusable_packet c x) as Hx by (intros [He _]; congruence).
    split.
    + intros n path err rest. split.
      * intros [= <- <- <- <-]. exists [], x. split; [done|].
        split; [constructor|]. split; [done|]. left. by exists e.
      * intros Hex. destruct (Hhead _ _ _ _ Hex Hx) as (-> & -> & Hm).
        destruct Hm as [(e' & He' & -> & ->)|(He' & _)]; congruence.
    + split; [done|]. by inversion 1.
  - destruct (decide (in_remote x ≠ dialedConn.remote c)) as [Hne|Heq].
    + assert (unusable_packet c x) as Hx by (split; [done | by left]).
      split.
      * intros n path err rest. symmetry. by apply Htail.
      * rewrite IHnone. split; [by constructor | by inversion 1].
    + apply dec_stable in Heq.
      destruct (reversePathFromForwardingPath _ _ (in_fwPath x))
        as [pth [e|]] eqn:Hrev.
      * assert (unusable_packet c x) as Hx.
        { split; [done|]. right. by rewrite Hrev. }
        split.
        -- intros n path err rest. symmetry. by apply Htail.
        -- rewrite IHnone. split; [by constructor | by inversion 1].
      * assert (¬ unusable_packet c x) as Hx.
        { intros [_ [Hne|Hbad]]; [done|]. by rewrite Hrev in Hbad. }
        split.
        -- intros n path err rest. split.
           ++ intros [= <- <- <- <-]. exists [], x. split; [done|].
              split; [constructor|]. split; [done|]. right.
              by rewrite Hrev.
           ++ intros Hex. destruct (Hhead _ _ _ _ Hex Hx) as (-> & -> & Hm).
              destruct Hm as [(e' & He' & _)|(_ & -> & _ & Hrev')];
                [congruence|].
              by inversion Hrev'.
        -- split; [done|]. by inversion 1.
Qed.

Lemma ReadVia_returns_reversible_from_remote_witness :
  @dialedConn_ReadVia Sample.reverser Sample.pathless
    [Sample.packet 10 Sample.neighbour 1; Sample.packet 20 Sample.there 9;
     Sample.packet 30 Sample.there 2; Sample.packet 40 Sample.there 1]
  = Some ((30, Some Sample.P2, None), [Sample.packet 40 Sample.there 1]) ∧
  @dialedConn_ReadVia Sample.reverser Sample.pathless
    [Sample.packet 10 Sample.neighbour 1; Sample.packet 20 Sample.there 9]
  = None.
Proof.
  split.
  - apply (@ReadVia_returns_reversible_from_remote Sample.reverser
             Sample.pathless).
    exists [Sample.packet 10 Sample.neighbour 1;
            Sample.packet 20 Sample.there 9], (Sample.packet 30 Sample.there 2).
    split; [reflexivity|]. split.
    + apply Forall_cons. split; [split; [reflexivity | by left]|].
      apply Forall_cons. split; [split; [reflexivity | by right]|].
      apply Forall_nil_2.
    + split; [reflexivity|]. right. repeat split; reflexivity.
  - apply (@ReadVia_returns_reversible_from_remote Sample.reverser
             Sample.pathless).
    apply Forall_cons. split; [split; [reflexivity | by left]|].
    apply Forall_cons. split; [split; [reflexivity | by right]|].
    apply Forall_nil_2.
Defined.

(** ** Replying and policies *)

(** X21.  On a listening socket with the default reply selector and a
    capacity of at least one: a failed [readMsg] and a packet whose path
    does not reverse leave the reply cache as it was; a packet from a
    remote whose path reverses to [P] is returned with [P], and a
    [WriteTo] to that remote, when it is in another domain, then goes out
    on [P] through the same raw connection. *)
Theorem reply_follows_received_path `{ReplyConfig} `{PathReverser}
    `{Transport} (now : Z) (m : Incoming) (bs : baseUDPConn)
    (local : UDPAddr) (s : DefaultReplySelector.t) (P : Path) (b : list Z) :
  let lc := {| listenConn.base := bs; listenConn.local := local;
               listenConn.selector :=
                 {| rs_type := DefaultReplySelector.t;
                    rs_methods := DefaultReplySelector_ReplySelector;
                    rs_state := s |} |} in
  let reversed := reversePathFromForwardingPath (ua_IA (in_remote m))
                    (ua_IA local) (in_fwPath m) in
  1 ≤ defaultSelectorMaxReplyPaths →
  (∀ e, in_err m = Some e →
     listenConn_ReadFromVia now m lc
     = Ok (lc, (in_n m, UDPAddr_zero, None, Some e))) ∧
  (∀ e, in_err m = None → reversed = (None, e) →
     listenConn_ReadFromVia now m lc
     = Ok (lc, (in_n m, in_remote m, None, e))) ∧
  (in_err m = None → reversed = (Some P, None) →
   ∃ lc', listenConn_ReadFromVia now m lc
          = Ok (lc', (in_n m, in_remote m, Some P, None)) ∧
          listenConn.base lc' = bs ∧ listenConn.local lc' = local ∧
          (ua_IA local ≠ ua_IA (in_remote m) →
           listenConn.WriteTo b (Addr_UDPAddr (in_remote m)) lc'
           = writeMsg bs local (in_remote m) (Some P) b None)).
Proof.
  intros lc reversed HC. unfold listenConn_ReadFromVia.
  cbn [listenConn.selector listenConn.local listenConn.base lc
       rs_type rs_methods rs_state].
  fold reversed. split; [|split].
  - by intros e ->.
  - intros e -> ->. simpl. by destruct s.
  - intros -> ->.
    change (@rs_Record _ DefaultReplySelector_ReplySelector)
      with DefaultReplySelector.Record_.
    destruct (Record_then_Path_aux now (in_remote m) P s HC)
      as (s' & -> & Hpath).
    simpl. eexists. split; [reflexivity|]. simpl. do 2 (split; [done|]).
    intros Hia. unfold listenConn.WriteTo. simpl.
    destruct (decide _); [|done]. by rewrite Hpath.
Qed.

Lemma reply_follows_received_path_witness :
  ∃ lc', @listenConn_ReadFromVia Sample.reverser 5
           (Sample.packet 10 Sample.there 2) Sample.listener
         = Ok (lc', (10, Sample.there, Some Sample.P2, None)) ∧
         @listenConn.WriteTo Sample.transport [1; 2] (Addr_UDPAddr Sample.there)
           lc'
         = @writeMsg Sample.transport {| written := [] |} Sample.here
             Sample.there (Some Sample.P2) [1; 2] None.
Proof.
  assert (1 ≤ @defaultSelectorMaxReplyPaths Sample.cache2) as HC
    by (simpl; lia).
  destruct (@reply_follows_received_path Sample.cache2 Sample.reverser
              Sample.transport 5 (Sample.packet 10 Sample.there 2)
              {| written := [] |} Sample.here
              DefaultReplySelector.NewDefaultReplySelector Sample.P2 [1; 2]
              HC)
    as (_ & _ & Hgood).
  destruct (Hgood eq_refl eq_refl) as (lc' & Hread & _ & _ & Hwrite).
  exists lc'. split; [exact Hread|]. apply Hwrite. simpl. lia.
Defined.

(** X22.  [SetPolicy] on a connection without subscriber changes nothing.
    On a connection with a subscriber and a [DefaultSelector] whose
    selected path has fingerprint [fp], it stores the new policy and hands
    the selector the pool's cached paths filtered by it: the selector then
    stays on [fp] when the new policy still admits a path with it, and
    moves to the first admitted path otherwise. *)
Theorem SetPolicy_refreshes_selector `{StatsQueries} `{PoolCache}
    (st : list StatsCall) (policy' : option (list Path → list Path))
    (bs : baseUDPConn) (local remote : UDPAddr) (sub : pathRefreshSubscriber)
    (sel : option SelectorObj) (ps : list Path) (cur : Z) (p : Path) :
  index ps cur = Ok p →
  let admitted := filtered policy' (pool_cachedPaths (remoteIA sub)) in
  dialedConn_SetPolicy st policy'
    {| dialedConn.base := bs; dialedConn.local := local;
       dialedConn.remote := remote; dialedConn.subscriber := None;
       dialedConn.selector := sel |}
  = Ok {| dialedConn.base := bs; dialedConn.local := local;
          dialedConn.remote := remote; dialedConn.subscriber := None;
          dialedConn.selector := sel |} ∧
  ∃ cur',
    dialedConn_SetPolicy st policy'
      {| dialedConn.base := bs; dialedConn.local := local;
         dialedConn.remote := remote; dialedConn.subscriber := Some sub;
         dialedConn.selector :=
           Some {| sel_type := DefaultSelector.t;
                   sel_methods := DefaultSelector_Selector;
                   sel_state := {| DefaultSelector.paths := ps;
                                   DefaultSelector.current := cur |} |} |}
    = Ok {| dialedConn.base := bs; dialedConn.local := local;
            dialedConn.remote := remote;
            dialedConn.subscriber :=
              Some {| remoteIA := remoteIA sub; sub_policy := policy' |};
            dialedConn.selector :=
              Some {| sel_type := DefaultSelector.t;
                      sel_methods := DefaultSelector_Selector;
                      sel_state := {| DefaultSelector.paths := admitted;
                                      DefaultSelector.current := cur' |} |} |}
    ∧ refreshed (Fingerprint p) admitted admitted cur'.
Proof.
  intros Hcur admitted. split; [done|].
  pose proof (index_Ok_len _ _ _ Hcur) as Hlen.
  unfold dialedConn_SetPolicy. simpl. unfold DefaultSelector.Refresh. simpl.
  destruct (decide (len ps > 0)); [|lia]. rewrite Hcur. simpl.
  eexists. split; [reflexivity|]. apply Refresh_loop_refreshed.
Qed.

Lemma SetPolicy_refreshes_selector_witness :
  ∃ cur',
    @dialedConn_SetPolicy Sample.pool_cache [] (Some (drop 1))
      {| dialedConn.base := {| written := [] |};
         dialedConn.local := Sample.here; dialedConn.remote := Sample.there;
         dialedConn.subscriber := Some {| remoteIA := 2; sub_policy := None |};
         dialedConn.selector :=
           Some {| sel_type := DefaultSelector.t;
                   sel_methods := @DefaultSelector_Selector Sample.registry;
                   sel_state :=
                     {| DefaultSelector.paths := [Sample.P1; Sample.P2; Sample.P3];
                        DefaultSelector.current := 2 |} |} |}
    = Ok {| dialedConn.base := {| written := [] |};
            dialedConn.local := Sample.here; dialedConn.remote := Sample.there;
            dialedConn.subscriber :=
              Some {| remoteIA := 2; sub_policy := Some (drop 1) |};
            dialedConn.selector :=
              Some {| sel_type := DefaultSelector.t;
                      sel_methods := @DefaultSelector_Selector Sample.registry;
                      sel_state :=
                        {| DefaultSelector.paths := [Sample.P2; Sample.P3];
                           DefaultSelector.current := cur' |} |} |}
    ∧ refreshed "f3" [Sample.P2; Sample.P3] [Sample.P2; Sample.P3] cur'.
Proof.
  exact (proj2 (@SetPolicy_refreshes_selector Sample.registry
                  Sample.pool_cache [] (Some (drop 1)) {| written := [] |}
                  Sample.here Sample.there
                  {| remoteIA := 2; sub_policy := None |} None
                  [Sample.P1; Sample.P2; Sample.P3] 2 Sample.P3 eq_refl)).
Defined.

(** ** The example client's validation handler *)

Lemma failure_step (stats_bits : Z) (st : hellofabrid.PathState) :
  0 ≤ hellofabrid.ValidationRatio st < 256 →
  let st' := (hellofabrid.ValidationHandler stats_bits st false).1 in
  hellofabrid.ValidationRatio st'
  = Z.min (2 * hellofabrid.ValidationRatio st) 255 ∧
  hellofabrid.UpdateValRatio st' = true ∧
  (hellofabrid.ValidationHandler stats_bits st false).2 = None.
Proof.
  intros Hr. unfold hellofabrid.ValidationHandler, hellofabrid.STRICT.
  simpl. unfold uint16, hellofabrid.uint8.
  rewrite (Z.mod_small (hellofabrid.ValidationRatio st)) by lia.
  rewrite (Z.mod_small (_ * 2)) by lia.
  destruct (decide _); simpl; rewrite Z.mod_small by lia;
    (split; [lia | done]).
Qed.

(** X23.  In the example client, a failed validation counts the packet
    as invalid, doubles the validation ratio and caps it at 255, sets
    [UpdateValRatio] and returns no error; a successful one changes
    nothing.  After [n] failures in a row a ratio [r] has become
    [min (r * 2^n) 255], and [UpdateValRatio] is set as soon as [n ≥ 1]: a
    ratio of zero stays zero, and any other ratio is 255 after eight
    failures. *)
Theorem failed_validations_escalate_ratio (stats_bits : Z) (n : nat)
    (st : hellofabrid.PathState) :
  0 ≤ hellofabrid.ValidationRatio st < 256 →
  hellofabrid.ValidationHandler stats_bits st true = (st, None) ∧
  hellofabrid.ValidationHandler stats_bits st false
  = ({| hellofabrid.ValidationRatio :=
          Z.min (2 * hellofabrid.ValidationRatio st) 255;
        hellofabrid.UpdateValRatio := true;
        hellofabrid.InvalidPackets :=
          (hellofabrid.InvalidPackets st + 1) mod 2 ^ stats_bits |}, None) ∧
  hellofabrid.ValidationRatio (failures stats_bits n st)
  = Z.min (hellofabrid.ValidationRatio st * 2 ^ Z.of_nat n) 255 ∧
  ((1 ≤ n)%nat →
   hellofabrid.UpdateValRatio (failures stats_bits n st) = true) ∧
  (hellofabrid.ValidationRatio st = 0 →
   hellofabrid.ValidationRatio (failures stats_bits n st) = 0) ∧
  (0 < hellofabrid.ValidationRatio st → (8 ≤ n)%nat →
   hellofabrid.ValidationRatio (failures stats_bits n st) = 255).
Proof.
  intros Hr. split; [done|].
  split.
  { destruct (failure_step stats_bits st Hr) as (Hratio & Hupd & Herr).
    destruct (hellofabrid.ValidationHandler stats_bits st false)
      as [st' e] eqn:E.
    simpl in Hratio, Hupd, Herr. subst e. f_equal.
    assert (hellofabrid.InvalidPackets st'
            = (hellofabrid.InvalidPackets st + 1) mod 2 ^ stats_bits)
      as Hinv.
    { unfold hellofabrid.ValidationHandler, hellofabrid.STRICT in E.
      simpl in E. by injection E as <-. }
    destruct st'. simpl in *. by subst. }
  assert (hellofabrid.ValidationRatio (failures stats_bits n st)
          = Z.min (hellofabrid.ValidationRatio st * 2 ^ Z.of_nat n) 255)
    as Hn.
  { induction n as [|n IH].
    - simpl. lia.
    - change (failures stats_bits (S n) st)
        with (hellofabrid.ValidationHandler stats_bits
                (failures stats_bits n st) false).1.
      set (prev := failures stats_bits n st) in *.
      assert (0 ≤ hellofabrid.ValidationRatio prev < 256) as Hprev.
      { rewrite IH. assert (0 ≤ 2 ^ Z.of_nat n) by (apply Z.pow_nonneg; lia).
        nia. }
      destruct (failure_step stats_bits prev Hprev) as (-> & _ & _).
      rewrite IH, Nat2Z.inj_succ, Z.pow_succ_r by lia.
      assert (0 < 2 ^ Z.of_nat n) by (apply Z.pow_pos_nonneg; lia).
      nia. }
  split; [done|]. split; [|split].
  - intros Hpos. destruct n as [|n]; [lia|].
    change (failures stats_bits (S n) st)
      with (hellofabrid.ValidationHandler stats_bits
              (failures stats_bits n st) false).1.
    unfold hellofabrid.ValidationHandler, hellofabrid.STRICT. done.
  - intros H0. rewrite Hn, H0. lia.
  - intros Hpos H8. rewrite Hn.
    assert (2 ^ 8 ≤ 2 ^ Z.of_nat n)
      by (apply Z.pow_le_mono_r; lia).
    change (2 ^ 8) with 256 in *. nia.
Qed.

Lemma failed_validations_escalate_ratio_witness :
  hellofabrid.ValidationHandler 32
    {| hellofabrid.ValidationRatio := 40;
       hellofabrid.UpdateValRatio := false;
       hellofabrid.InvalidPackets := 0 |} false
  = ({| hellofabrid.ValidationRatio := 80;
        hellofabrid.UpdateValRatio := true;
        hellofabrid.InvalidPackets := 1 |}, None) ∧
  hellofabrid.ValidationRatio
    (failures 32 3
       {| hellofabrid.ValidationRatio := 40;
          hellofabrid.UpdateValRatio := false;
          hellofabrid.InvalidPackets := 0 |}) = 255 ∧
  hellofabrid.UpdateValRatio
    (failures 32 3
       {| hellofabrid.ValidationRatio := 40;
          hellofabrid.UpdateValRatio := false;
          hellofabrid.InvalidPackets := 0 |}) = true.
Proof.
  assert (0 ≤ 40 < 256) as Hr by lia.
  destruct (failed_validations_escalate_ratio 32 3
              {| hellofabrid.ValidationRatio := 40;
                 hellofabrid.UpdateValRatio := false;
                 hellofabrid.InvalidPackets := 0 |} Hr)
    as (_ & Hstep & Hn & Hupd & _).
  split; [exact Hstep|]. split; [rewrite Hn; reflexivity|].
  apply Hupd. lia.
Defined.
